(** * Citation / reference consistency checker: a shallow embedding

    Source: [sbb-citation-match-checker.py].  The script extracts name-year
    citations from the text of a document, derives ["surname|year"] keys
    from them and from the lines of the reference list, and reports the
    keys found on one side only.

    Python strings are sequences of Unicode code points, so a text is a
    list of code points ([N]).  The character tests of [str] and [re]
    ([str.strip], [str.split], [\s], [\d], [str.lower]) follow CPython:
    white space is the fixed table of [Py_UNICODE_ISSPACE]; decimal digits
    and lower-casing are the ASCII ones on ASCII input and come from the
    Unicode character database otherwise, which is a parameter of the
    development ([UnicodeData]).  Regular expressions are run by a
    backtracking matcher with the priorities of [re] (greedy and lazy
    repetition, optional items, capture groups, [^] and [$]). *)

From Stdlib Require Import NArith Ascii String List Bool Arith Lia Sorted.
From stdpp Require Import base option list gmap sets.
Import ListNotations.

Local Open Scope N_scope.
Local Open Scope nat_scope.

(** ** Texts *)

Abbreviation str := (list N).

(** Code points of a source literal: the literal's bytes, read as UTF-8. *)
Fixpoint utf8_decode (bs : list N) : str :=
  match bs with
  | [] => []
  | b :: r =>
      if (b <? 128)%N then b :: utf8_decode r
      else if (b <? 224)%N then
        match r with
        | b1 :: r' => ((b mod 32) * 64 + b1 mod 64)%N :: utf8_decode r'
        | _ => []
        end
      else if (b <? 240)%N then
        match r with
        | b1 :: b2 :: r' =>
            ((b mod 16) * 4096 + (b1 mod 64) * 64 + b2 mod 64)%N :: utf8_decode r'
        | _ => []
        end
      else
        match r with
        | b1 :: b2 :: b3 :: r' =>
            ((b mod 8) * 262144 + (b1 mod 64) * 4096 + (b2 mod 64) * 64 + b3 mod 64)%N
              :: utf8_decode r'
        | _ => []
        end
  end.

Definition u (s : string) : str :=
  utf8_decode (map N_of_ascii (list_ascii_of_string s)).
Arguments u s%_string.

Definition ch (a : ascii) : N := N_of_ascii a.
Arguments ch a%_char.

(** [Py_UNICODE_ISSPACE]: the code points [str.strip], [str.split] and the
    class [\s] of a [str] pattern treat as white space. *)
Definition isspace (c : N) : bool :=
  ((9 <=? c) && (c <=? 13) || (28 <=? c) && (c <=? 32)
   || (c =? 133) || (c =? 160) || (c =? 5760)
   || (8192 <=? c) && (c <=? 8202)
   || (c =? 8232) || (c =? 8233) || (c =? 8239) || (c =? 8287) || (c =? 12288))%N.

Definition is_ascii (c : N) : bool := (c <? 128)%N.
Definition is_upper_AZ (c : N) : bool := ((65 <=? c) && (c <=? 90))%N.
Definition is_lower_az (c : N) : bool := ((97 <=? c) && (c <=? 122))%N.
Definition ascii_digit (c : N) : bool := ((48 <=? c) && (c <=? 57))%N.
Definition ascii_lower (c : N) : N := if is_upper_AZ c then (c + 32)%N else c.

(** The part of the Unicode character database the script reaches through
    [\d] and [str.lower] outside ASCII.  No decimal digit is white space. *)
Class UnicodeData := {
  unicode_decimal : N -> bool;
  unicode_lower : str -> str;
  unicode_decimal_not_space :
    forall c, unicode_decimal c = true -> isspace c = false
}.

(** A database without characters beyond ASCII digits and letters. *)
Definition ascii_only : UnicodeData := {|
  unicode_decimal := fun _ => false;
  unicode_lower := fun s => s;
  unicode_decimal_not_space := fun c (H : false = true) =>
    match H in _ = b return if b then isspace c = false else True with
    | eq_refl => I
    end
|}.

Section Checker.
Context {U : UnicodeData}.

(** [\d] of a [str] pattern. *)
Definition isdecimal (c : N) : bool :=
  if is_ascii c then ascii_digit c else unicode_decimal c.

(** [str.lower]: CPython lowers an ASCII string byte by byte and goes
    through the case mappings of the database otherwise. *)
Definition lower (s : str) : str :=
  if forallb is_ascii s then map ascii_lower s else unicode_lower s.

(** [str.lstrip], [str.rstrip], [str.strip] without argument. *)
Fixpoint lstrip (s : str) : str :=
  match s with
  | c :: s' => if isspace c then lstrip s' else s
  | [] => []
  end.

Definition rstrip (s : str) : str := rev (lstrip (rev s)).

Definition strip (s : str) : str := rstrip (lstrip s).

(** [str.split()] without argument: the maximal runs of characters that
    are not white space. [cur] holds the current run, reversed. *)
Fixpoint split_from (cur : str) (s : str) : list str :=
  match s with
  | [] => match cur with [] => [] | _ => [rev cur] end
  | c :: s' =>
      if isspace c then
        match cur with
        | [] => split_from [] s'
        | _ => rev cur :: split_from [] s'
        end
      else split_from (c :: cur) s'
  end.

Definition split (s : str) : list str := split_from [] s.

(** [c in s] for a one-character [c], and [s.split(c, 1)[0]]. *)
Definition has_char (c : N) (s : str) : bool := existsb (N.eqb c) s.

Fixpoint before_first (c : N) (s : str) : str :=
  match s with
  | [] => []
  | x :: s' => if (x =? c)%N then [] else x :: before_first c s'
  end.

(** [kw in s]. *)
Fixpoint starts_with (kw s : str) : bool :=
  match kw, s with
  | [], _ => true
  | _ :: _, [] => false
  | a :: kw', b :: s' => (a =? b)%N && starts_with kw' s'
  end.

Fixpoint contains (kw s : str) : bool :=
  starts_with kw s ||
  match s with
  | [] => false
  | _ :: s' => contains kw s'
  end.

(** [s[a:b]] for [0 <= a], [0 <= b], and [c[1:-1]]. *)
Definition slice (s : str) (a b : nat) : str := take (b - a) (drop a s).

Definition inner (c : str) : str := drop 1 (take (length c - 1) c).

(** ** Regular expressions *)

Inductive regex : Type :=
| Eps : regex
| Cls : (N -> bool) -> regex       (* one character of a class *)
| Cat : regex -> regex -> regex
| Opt : regex -> regex             (* r?  *)
| Star : regex -> regex            (* r*  *)
| LazyStar : regex -> regex        (* r*? *)
| Grp : nat -> regex -> regex      (* (r), numbered *)
| Bol : regex                      (* ^ *)
| Eol : regex.                     (* $ *)

Fixpoint Rep (n : nat) (r : regex) : regex :=   (* r{n} *)
  match n with
  | 0 => Eps
  | S n' => Cat r (Rep n' r)
  end.

Definition Chr (c : N) : regex := Cls (N.eqb c).

Fixpoint Lit (s : str) : regex :=
  match s with
  | [] => Eps
  | c :: s' => Cat (Chr c) (Lit s')
  end.

(** Spans of the groups matched so far, most recent first. *)
Definition groups := list (nat * (nat * nat)).

(** What remains to be matched after an item: position, rest of the
    text, groups; [None] makes the matcher backtrack. *)
Definition cont := nat -> str -> groups -> option (nat * groups).

Definition or_else {A} (a b : option A) : option A :=
  match a with
  | Some x => Some x
  | None => b
  end.

(** Repetition. An iteration has to consume a character (the items
    repeated in the script's patterns always do), so [length s] rounds
    are enough; see [star_loop_fuel]. *)
Fixpoint star_loop (step : nat -> str -> groups -> cont -> option (nat * groups))
    (greedy : bool) (fuel : nat)
    (pos : nat) (s : str) (g : groups) (k : cont) : option (nat * groups) :=
  let again :=
    match fuel with
    | 0 => None
    | S fuel' =>
        step pos s g (fun pos' s' g' =>
          if length s' <? length s
          then star_loop step greedy fuel' pos' s' g' k
          else None)
    end in
  if greedy then or_else again (k pos s g) else or_else (k pos s g) again.

(** [$]: the end of the text, or just before a newline that ends it. *)
Definition at_end (s : str) : bool :=
  match s with
  | [] => true
  | [c] => (c =? 10)%N
  | _ => false
  end.

Fixpoint run (r : regex) (pos : nat) (s : str) (g : groups) (k : cont)
  : option (nat * groups) :=
  match r with
  | Eps => k pos s g
  | Cls p =>
      match s with
      | c :: s' => if p c then k (S pos) s' g else None
      | [] => None
      end
  | Cat r1 r2 => run r1 pos s g (fun pos' s' g' => run r2 pos' s' g' k)
  | Opt r1 => or_else (run r1 pos s g k) (k pos s g)
  | Star r1 => star_loop (run r1) true (length s) pos s g k
  | LazyStar r1 => star_loop (run r1) false (length s) pos s g k
  | Grp i r1 => run r1 pos s g (fun pos' s' g' => k pos' s' ((i, (pos, pos')) :: g'))
  | Bol => if pos =? 0 then k pos s g else None
  | Eol => if at_end s then k pos s g else None
  end.

(** Match objects: the span of the whole match and of the groups. *)
Record match_obj := { m_start : nat; m_end : nat; m_groups : groups }.

Definition accept : cont := fun pos _ g => Some (pos, g).

(** A match that starts at [pos], where [s] is the text from [pos] on. *)
Definition match_at (r : regex) (pos : nat) (s : str) : option match_obj :=
  match run r pos s [] accept with
  | Some (e, g) => Some {| m_start := pos; m_end := e; m_groups := g |}
  | None => None
  end.

(** [re.match(r, text)] *)
Definition re_match (r : regex) (text : str) : option match_obj :=
  match_at r 0 text.

(** [re.search(r, text)]: the match at the leftmost position that has one. *)
Fixpoint search_from (r : regex) (pos : nat) (s : str) : option match_obj :=
  match match_at r pos s with
  | Some m => Some m
  | None =>
      match s with
      | [] => None
      | _ :: s' => search_from r (S pos) s'
      end
  end.

Definition re_search (r : regex) (text : str) : option match_obj :=
  search_from r 0 text.

(** [re.finditer(r, text)]: leftmost matches that do not overlap. [skip]
    counts the characters of the current match still to be passed. The
    script's patterns match no empty string; after an empty match the scan
    moves on by one character. *)
Fixpoint finditer_from (r : regex) (skip : nat) (pos : nat) (s : str)
  : list match_obj :=
  match skip with
  | S skip' =>
      match s with
      | [] => []
      | _ :: s' => finditer_from r skip' (S pos) s'
      end
  | 0 =>
      match match_at r pos s with
      | Some m =>
          m :: match s with
               | [] => []
               | _ :: s' => finditer_from r (m_end m - pos - 1) (S pos) s'
               end
      | None =>
          match s with
          | [] => []
          | _ :: s' => finditer_from r 0 (S pos) s'
          end
      end
  end.

Definition finditer (r : regex) (text : str) : list match_obj :=
  finditer_from r 0 0 text.

(** [m.group(0)] and [m.group(i)]. *)
Definition group0 (m : match_obj) (text : str) : str :=
  slice text (m_start m) (m_end m).

Fixpoint span_of (i : nat) (g : groups) : option (nat * nat) :=
  match g with
  | [] => None
  | (j, sp) :: g' => if i =? j then Some sp else span_of i g'
  end.

Definition group (m : match_obj) (i : nat) (text : str) : str :=
  match span_of i (m_groups m) with
  | Some (a, b) => slice text a b
  | None => []
  end.

(** [re.sub(r, "", text)]: the text without the matched spans. *)
Fixpoint cut_spans (ms : list match_obj) (pos : nat) (s : str) : str :=
  match ms with
  | [] => s
  | m :: ms' =>
      take (m_start m - pos) s
        ++ cut_spans ms' (m_end m) (drop (m_end m - pos) s)
  end.

Definition re_sub_empty (r : regex) (text : str) : str :=
  cut_spans (finditer r text) 0 text.

(** ** The script *)

(** [\d{4}[a-z]?] *)
Definition year_token : regex := Cat (Rep 4 (Cls isdecimal)) (Opt (Cls is_lower_az)).

Definition not_paren (c : N) : bool := negb ((c =? ch "(")%N || (c =? ch ")")%N).
Definition semi_or_comma (c : N) : bool := ((c =? ch ";") || (c =? ch ","))%N.

(** The pattern of [extract_citations], item by item:
    [\(]  [[^()]*?]  [\d{4}[a-z]?]  [[^()]*?]
    [(?:] [[;,]] [[^()]*] [\d{4}[a-z]?] [[^()]*] [)] repeated ([*]),  [\)] *)
Definition citation_pattern : regex :=
  Cat (Chr (ch "("))
  (Cat (LazyStar (Cls not_paren))
  (Cat year_token
  (Cat (LazyStar (Cls not_paren))
  (Cat (Star (Cat (Cls semi_or_comma)
             (Cat (Star (Cls not_paren))
             (Cat year_token
                  (Star (Cls not_paren))))))
       (Chr (ch ")")))))).

Definition extract_citations (text : str) : list str :=
  let citations_raw := map (fun m => group0 m text) (finditer citation_pattern text) in
  let citations_clean := map (fun c => strip (inner c)) citations_raw in
  citations_clean.

(** [et al\.] *)
Definition et_al_pattern : regex := Lit (u "et al.").

(** [^[A-Z]\.?$] *)
Definition initial_pattern : regex :=
  Cat Bol (Cat (Cls is_upper_AZ) (Cat (Opt (Chr (ch "."))) Eol)).

(** [[^A-Za-z\-'\s]] *)
Definition surname_char (c : N) : bool :=
  is_upper_AZ c || is_lower_az c || (c =? ch "-")%N || (c =? ch "'")%N || isspace c.

Definition strange_char_pattern : regex := Cls (fun c => negb (surname_char c)).

(** [if "," in author: author = author.split(",", 1)[0].strip()] *)
Definition before_comma (author : str) : str :=
  if has_char (ch ",") author
  then strip (before_first (ch ",") author)
  else author.

Definition normalize_author (author : str) : str :=
  let author := strip author in
  let author := strip (re_sub_empty et_al_pattern author) in
  let author := before_comma author in
  let tokens := split author in
  match tokens with
  | [] => []
  | t0 :: _ =>
      let surname :=
        if (2 <=? length tokens) && bool_decide (is_Some (re_match initial_pattern t0))
        then List.last tokens []
        else t0 in
      let surname := re_sub_empty strange_char_pattern surname in
      lower surname
  end.

(** [f"{author_norm}|{year}"] *)
Definition make_key (author_norm year : str) : str :=
  author_norm ++ u "|" ++ year.

(** [([A-Z][^,]*?),\s*(\d{4}[a-z]?)] *)
Definition author_year_pattern : regex :=
  Cat (Grp 1 (Cat (Cls is_upper_AZ) (LazyStar (Cls (fun c => negb (c =? ch ",")%N)))))
  (Cat (Chr (ch ","))
  (Cat (Star (Cls isspace))
       (Grp 2 year_token))).

(** [key_to_examples.setdefault(key, set()).add(cit)] *)
Definition add_example (key cit : str) (d : gmap str (gset str)) : gmap str (gset str) :=
  <[key := default ∅ (d !! key) ∪ {[cit]}]> d.

Definition citation_step (cit : str) (d : gmap str (gset str)) (m : match_obj)
  : gmap str (gset str) :=
  let raw_author_part := strip (group m 1 cit) in
  let year := group m 2 cit in
  let author_norm := normalize_author raw_author_part in
  match author_norm with
  | [] => d
  | _ => add_example (make_key author_norm year) cit d
  end.

Definition build_citation_keys (citation_strings : list str) : gmap str (gset str) :=
  fold_left
    (fun d cit => fold_left (citation_step cit) (finditer author_year_pattern cit) d)
    citation_strings ∅.

Definition heading_keywords : list str :=
  [ u "references"; u "reference"; u "bibliography"; u "literature cited";
    u "works cited"; u "参考文献"; u "參考文獻"; u "文献"; u "文獻" ].

Definition is_heading (text : str) : bool :=
  existsb (fun kw => contains kw (lower text)) heading_keywords.

(** The loop of [extract_reference_paragraphs] over the texts of
    [doc.paragraphs], with its two variables. *)
Fixpoint reference_loop (refs_started : bool) (refs : list str) (paragraphs : list str)
  : list str :=
  match paragraphs with
  | [] => refs
  | p :: rest =>
      let text := strip p in
      if negb refs_started then
        reference_loop (is_heading text) refs rest
      else
        match text with
        | [] => reference_loop refs_started refs rest
        | _ => reference_loop refs_started (refs ++ [text]) rest
        end
  end.

Definition extract_reference_paragraphs (paragraphs : list str) : list str :=
  reference_loop false [] paragraphs.

Record ref_entry := {
  index : nat;
  raw : str;
  author_norm : str;
  year : str;
  key : str
}.

(** [(\d{4}[a-z]?)] *)
Definition year_pattern : regex := Grp 1 year_token.

(** The loop of [parse_reference_entries]; [i] is the counter of
    [enumerate]. *)
Fixpoint parse_from (i : nat) (ref_lines : list str) : list ref_entry :=
  match ref_lines with
  | [] => []
  | text :: rest =>
      match re_search year_pattern text with
      | None => parse_from (S i) rest
      | Some m =>
          let year := group m 1 text in
          let first_author_part := strip (before_first (ch ",") text) in
          let author_norm := normalize_author first_author_part in
          match author_norm with
          | [] => parse_from (S i) rest
          | _ =>
              {| index := i; raw := text; author_norm := author_norm;
                 year := year; key := make_key author_norm year |}
                :: parse_from (S i) rest
          end
      end
  end.

Definition parse_reference_entries (ref_lines : list str) : list ref_entry :=
  parse_from 0 ref_lines.

(** What [python-docx] hands to the script: the texts of [doc.paragraphs]
    and, for each table, each row, each cell, the cell's text. *)
Record document := {
  paragraphs : list str;
  tables : list (list (list str))
}.

Definition nonempty (s : str) : bool :=
  match s with
  | [] => false
  | _ => true
  end.

(** ["\n".join(parts)] *)
Fixpoint join_lines (parts : list str) : str :=
  match parts with
  | [] => []
  | [p] => p
  | p :: rest => p ++ 10%N :: join_lines rest
  end.

Definition extract_text_from_docx (doc : document) : str :=
  let parts :=
    filter (fun t => nonempty t = true) (paragraphs doc)
      ++ filter (fun t => nonempty t = true) (concat (concat (tables doc))) in
  join_lines parts.

(** Step 3 of [main]: the two set differences. *)
Definition reconcile (cit_key_examples : gmap str (gset str)) (ref_keys : gset str)
  : gset str * gset str :=
  let citation_keys : gset str := dom cit_key_examples in
  let missing_keys := citation_keys ∖ ref_keys in
  let unused_keys := ref_keys ∖ citation_keys in
  (missing_keys, unused_keys).

(** The variables of [main] that the end of the report is built from. *)
Record main_state := {
  citations : list str;
  cit_key_examples : gmap str (gset str);
  ref_lines : list str;
  ref_entries : list ref_entry;
  ref_keys : gset str;
  missing_keys : gset str;
  unused_keys : gset str
}.

Definition main (doc : document) : main_state :=
  let full_text := extract_text_from_docx doc in
  let citations := extract_citations full_text in
  let cit_key_examples := build_citation_keys citations in
  let ref_lines := extract_reference_paragraphs (paragraphs doc) in
  match ref_lines with
  | [] =>
      {| citations := citations; cit_key_examples := cit_key_examples;
         ref_lines := ref_lines; ref_entries := []; ref_keys := ∅;
         missing_keys := ∅; unused_keys := ∅ |}
  | _ =>
      let ref_entries := parse_reference_entries ref_lines in
      let ref_keys : gset str := list_to_set (map key ref_entries) in
      let '(missing_keys, unused_keys) := reconcile cit_key_examples ref_keys in
      {| citations := citations; cit_key_examples := cit_key_examples;
         ref_lines := ref_lines; ref_entries := ref_entries; ref_keys := ref_keys;
         missing_keys := missing_keys; unused_keys := unused_keys |}
  end.

(** The three texts of the last line of the report. *)
Definition could_not_assess_line : str :=
  10%N :: u "OVERALL: Could not assess citation consistency because no reference list was detected.".

Definition errors_line : str :=
  10%N :: u "OVERALL: Citation–reference consistency has ERRORS. "
    ++ u "Some in-text citations (first author + year) do not have matching entries in the reference list. "
    ++ u "Please add or correct those references.".

Definition good_line : str :=
  10%N :: u "OVERALL: Citation–reference consistency looks GOOD. "
    ++ u "All detected in-text citation keys have at least one matching reference entry. "
    ++ u "Any unused references listed above are optional clean-up (not a formal style violation).".

(** The end of step 4 of [main]; a set is true when it is not empty. *)
Definition overall_line (a : main_state) : str :=
  match ref_lines a with
  | [] => could_not_assess_line
  | _ =>
      if bool_decide (missing_keys a ≠ ∅)
      then errors_line
      else good_line
  end.

(** A document with a reference list of one entry and no citation. *)
Definition uncited_reference : document :=
  {| paragraphs := [u "References"; u "Duer, A. 1992. Title."]; tables := [] |}.

(** ** Notions the properties are stated with *)

(** A year token: four decimal digits, then at most one lowercase letter. *)
Definition is_year_token (y : str) : bool :=
  match y with
  | [d1; d2; d3; d4] => isdecimal d1 && isdecimal d2 && isdecimal d3 && isdecimal d4
  | [d1; d2; d3; d4; l] =>
      isdecimal d1 && isdecimal d2 && isdecimal d3 && isdecimal d4 && is_lower_az l
  | _ => false
  end.

Definition has_year_token (s : str) : Prop :=
  exists pre y post, s = pre ++ y ++ post /\ is_year_token y = true.

(** An initial: one capital letter, then at most one period. *)
Definition is_initial (t : str) : bool :=
  match t with
  | [c] => is_upper_AZ c
  | [c; d] => is_upper_AZ c && (d =? ch ".")%N
  | _ => false
  end.

(** A text without the occurrences of a word, read from the left; [skip]
    counts the characters of the current occurrence still to be passed. *)
Fixpoint remove_from (w : str) (skip : nat) (s : str) : str :=
  match s with
  | [] => []
  | c :: s' =>
      match skip with
      | S skip' => remove_from w skip' s'
      | 0 =>
          if starts_with w s then remove_from w (length w - 1) s'
          else c :: remove_from w 0 s'
      end
  end.

Definition remove_all (w s : str) : str := remove_from w 0 s.

(** A line of the reference list that gets an entry. *)
Definition keyable (text : str) : bool :=
  bool_decide (is_Some (re_search year_pattern text))
  && nonempty (normalize_author (strip (before_first (ch ",") text))).

(** The words a pattern can match, whatever surrounds them. *)
Inductive matches : regex -> str -> Prop :=
| M_Eps : matches Eps []
| M_Cls p c : p c = true -> matches (Cls p) [c]
| M_Cat r1 r2 w1 w2 : matches r1 w1 -> matches r2 w2 -> matches (Cat r1 r2) (w1 ++ w2)
| M_Opt_none r : matches (Opt r) []
| M_Opt_some r w : matches r w -> matches (Opt r) w
| M_Star_nil r : matches (Star r) []
| M_Star_more r w1 w2 :
    matches r w1 -> matches (Star r) w2 -> matches (Star r) (w1 ++ w2)
| M_Lazy_nil r : matches (LazyStar r) []
| M_Lazy_more r w1 w2 :
    matches r w1 -> matches (LazyStar r) w2 -> matches (LazyStar r) (w1 ++ w2)
| M_Grp i r w : matches r w -> matches (Grp i r) w
| M_Bol : matches Bol []
| M_Eol : matches Eol [].

(** The least number of characters a match of the pattern has. *)
Fixpoint min_len (r : regex) : nat :=
  match r with
  | Cls _ => 1
  | Cat r1 r2 => min_len r1 + min_len r2
  | Grp _ r1 => min_len r1
  | _ => 0
  end.

(** ** The matcher *)

Inductive iter (L : str -> Prop) : str -> Prop :=
| iter_nil : iter L []
| iter_more w1 w2 : L w1 -> iter L w2 -> iter L (w1 ++ w2).

(** A step of the matcher that only hands over to its continuation after
    a word of [L]. *)
Definition step_sound (L : str -> Prop)
    (step : nat -> str -> groups -> cont -> option (nat * groups)) : Prop :=
  forall pos s g k res,
    step pos s g k = Some res ->
    exists w s' g', s = w ++ s' /\ L w /\ k (pos + length w) s' g' = Some res.

Definition step_ext (step : nat -> str -> groups -> cont -> option (nat * groups)) : Prop :=
  forall pos s g k1 k2,
    (forall p s' g', k1 p s' g' = k2 p s' g') ->
    step pos s g k1 = step pos s g k2.

Definition step_fail (step : nat -> str -> groups -> cont -> option (nat * groups)) : Prop :=
  forall pos s g, step pos s g (fun _ _ _ => None) = None.

(** [re.sub(r, "", s)] read directly off the text: a character is dropped
    when a match covers it. *)
Fixpoint remove_matches (r : regex) (skip pos : nat) (s : str) : str :=
  match s with
  | [] => []
  | c :: s' =>
      match skip with
      | S skip' => remove_matches r skip' (S pos) s'
      | 0 =>
          match match_at r pos s with
          | Some m => remove_matches r (m_end m - pos - 1) (S pos) s'
          | None => c :: remove_matches r 0 (S pos) s'
          end
      end
  end.

(** Every character class of the pattern lies within [q]. *)
Fixpoint cls_within (q : N -> bool) (r : regex) : Prop :=
  match r with
  | Cls p => forall c, p c = true -> q c = true
  | Cat r1 r2 => cls_within q r1 /\ cls_within q r2
  | Opt r1 | Star r1 | LazyStar r1 | Grp _ r1 => cls_within q r1
  | Eps | Bol | Eol => True
  end.

(** ** Notions of the further properties *)

(** A pattern without capture groups, and one without [^] and [$]. *)
Fixpoint group_free (r : regex) : bool :=
  match r with
  | Grp _ _ => false
  | Cat r1 r2 => group_free r1 && group_free r2
  | Opt r1 | Star r1 | LazyStar r1 => group_free r1
  | Eps | Cls _ | Bol | Eol => true
  end.

Fixpoint anchor_free (r : regex) : bool :=
  match r with
  | Bol | Eol => false
  | Cat r1 r2 => anchor_free r1 && anchor_free r2
  | Opt r1 | Star r1 | LazyStar r1 | Grp _ r1 => anchor_free r1
  | Eps | Cls _ => true
  end.

(** A step that leaves the groups as they are. *)
Definition step_plain (L : str -> Prop)
    (step : nat -> str -> groups -> cont -> option (nat * groups)) : Prop :=
  forall pos s g k res,
    step pos s g k = Some res ->
    exists w s', s = w ++ s' /\ L w /\ k (pos + length w) s' g = Some res.

(** A step that finds a result whenever a word of [L] is followed by a
    text the continuation accepts. *)
Definition step_complete (L : str -> Prop)
    (step : nat -> str -> groups -> cont -> option (nat * groups)) : Prop :=
  forall w, L w ->
  forall pos s' g (k : cont),
    (forall g', is_Some (k (pos + length w) s' g')) ->
    is_Some (step pos (w ++ s') g k).

(** An ASCII letter. *)
Definition is_letter (c : N) : bool := is_upper_AZ c || is_lower_az c.

(** The key one match of the author-year pattern gives, if any, and the
    keys one citation string gives: one round of the inner loop of
    [build_citation_keys]. *)
Definition match_key (cit : str) (m : match_obj) : option str :=
  match normalize_author (strip (group m 1 cit)) with
  | [] => None
  | a => Some (make_key a (group m 2 cit))
  end.

Definition keys_in (cit : str) : list str :=
  omap (match_key cit) (finditer author_year_pattern cit).

(** An entry with its index moved by [n]. *)
Definition shift_index (n : nat) (e : ref_entry) : ref_entry :=
  {| index := n + index e; raw := raw e; author_norm := author_norm e;
     year := year e; key := key e |}.

(** The lines of the report under the [INFO] header, one for every entry
    whose key is unused, in the order of the entries:
    [for e in ref_entries: if e["key"] in unused_keys: "  - " + e["raw"]]. *)
Definition unused_entry_lines (a : main_state) : list str :=
  map (fun e => u "  - " ++ raw e)
    (filter (fun e => key e ∈ unused_keys a) (ref_entries a)).

(** A document with one citation of two works and a reference list that
    holds the first of them. *)
Definition cited_document : document :=
  {| paragraphs := [u "As shown (Duer et al., 1992; Luo, 2022).";
                    u "References";
                    u "Duer, A. 1992. Title."];
     tables := [] |}.

Lemma or_else_Some {A} (a b : option A) (x : A) :
  or_else a b = Some x -> a = Some x \/ (a = None /\ b = Some x).
Proof. destruct a; simpl; intros H; [left | right]; auto. Qed.

Lemma iter_star r w : iter (matches r) w -> matches (Star r) w.
Proof. induction 1; [apply M_Star_nil | apply M_Star_more; assumption]. Qed.

Lemma iter_lazy r w : iter (matches r) w -> matches (LazyStar r) w.
Proof. induction 1; [apply M_Lazy_nil | apply M_Lazy_more; assumption]. Qed.

Lemma star_iter r w : matches (Star r) w -> iter (matches r) w.
Proof.
  intros H. remember (Star r) as q eqn:Eq. revert Eq.
  induction H; intros Eq; try discriminate; inversion Eq; subst.
  - constructor.
  - constructor; auto.
Qed.

Lemma lazy_iter r w : matches (LazyStar r) w -> iter (matches r) w.
Proof.
  intros H. remember (LazyStar r) as q eqn:Eq. revert Eq.
  induction H; intros Eq; try discriminate; inversion Eq; subst.
  - constructor.
  - constructor; auto.
Qed.

Lemma star_loop_sound L step greedy :
  step_sound L step ->
  forall fuel pos s g k res,
    star_loop step greedy fuel pos s g k = Some res ->
    exists w s' g', s = w ++ s' /\ iter L w /\ k (pos + length w) s' g' = Some res.
Proof.
  intros Hstep. induction fuel as [|fuel IH]; intros pos s g k res H.
  - exists [], s, g. simpl in H. rewrite Nat.add_0_r.
    destruct greedy; simpl in H; (split; [reflexivity | split; [constructor | ]]).
    + exact H.
    + destruct (k pos s g); [exact H | discriminate].
  - assert (Hnil : k pos s g = Some res ->
      exists w s' g', s = w ++ s' /\ iter L w /\ k (pos + length w) s' g' = Some res).
    { intros Hk. exists [], s, g. rewrite Nat.add_0_r.
      split; [reflexivity | split; [constructor | exact Hk]]. }
    assert (Hmore : step pos s g (fun pos' s' g' =>
               if length s' <? length s
               then star_loop step greedy fuel pos' s' g' k else None) = Some res ->
      exists w s' g', s = w ++ s' /\ iter L w /\ k (pos + length w) s' g' = Some res).
    { intros Hs. apply Hstep in Hs. destruct Hs as (w1 & s1 & g1 & -> & Hw1 & Hs).
      destruct (length s1 <? length (w1 ++ s1)); [|discriminate].
      apply IH in Hs. destruct Hs as (w2 & s2 & g2 & -> & Hw2 & Hk).
      exists (w1 ++ w2), s2, g2. split; [by rewrite app_assoc|].
      split; [by constructor|].
      rewrite length_app, Nat.add_assoc. exact Hk. }
    simpl in H. destruct greedy; apply or_else_Some in H;
      destruct H as [H | [_ H]]; auto.
Qed.

Theorem run_sound r :
  forall pos s g k res,
    run r pos s g k = Some res ->
    exists w s' g', s = w ++ s' /\ matches r w /\ k (pos + length w) s' g' = Some res.
Proof.
  induction r as [ | p | r1 IH1 r2 IH2 | r1 IH1 | r1 IH1 | r1 IH1 | i r1 IH1 | | ];
    intros pos s g k res H; simpl in H.
  - exists [], s, g. rewrite Nat.add_0_r. repeat split; [constructor | exact H].
  - destruct s as [|c s']; [discriminate|].
    destruct (p c) eqn:Hp; [|discriminate].
    exists [c], s', g. simpl. rewrite Nat.add_1_r.
    repeat split; [by constructor | exact H].
  - apply IH1 in H. destruct H as (w1 & s1 & g1 & -> & Hw1 & H).
    apply IH2 in H. destruct H as (w2 & s2 & g2 & -> & Hw2 & H).
    exists (w1 ++ w2), s2, g2. split; [by rewrite app_assoc|].
    split; [by constructor|]. rewrite length_app, Nat.add_assoc. exact H.
  - apply or_else_Some in H. destruct H as [H | [_ H]].
    + apply IH1 in H. destruct H as (w & s' & g' & -> & Hw & H).
      exists w, s', g'. repeat split; [by apply M_Opt_some | exact H].
    + exists [], s, g. rewrite Nat.add_0_r. repeat split; [apply M_Opt_none | exact H].
  - apply (star_loop_sound (matches r1)) in H; [|exact IH1].
    destruct H as (w & s' & g' & -> & Hw & H).
    exists w, s', g'. repeat split; [by apply iter_star | exact H].
  - apply (star_loop_sound (matches r1)) in H; [|exact IH1].
    destruct H as (w & s' & g' & -> & Hw & H).
    exists w, s', g'. repeat split; [by apply iter_lazy | exact H].
  - apply IH1 in H. destruct H as (w & s' & g' & -> & Hw & H).
    eexists w, s', _. repeat split; [by constructor | exact H].
  - destruct (pos =? 0); [|discriminate].
    exists [], s, g. rewrite Nat.add_0_r. repeat split; [constructor | exact H].
  - destruct (at_end s); [|discriminate].
    exists [], s, g. rewrite Nat.add_0_r. repeat split; [constructor | exact H].
Qed.

(** The number of rounds given to a repetition is enough: more rounds
    change nothing. *)
Lemma star_loop_ext step greedy :
  step_ext step ->
  forall fuel pos s g k1 k2,
    (forall p s' g', k1 p s' g' = k2 p s' g') ->
    star_loop step greedy fuel pos s g k1 = star_loop step greedy fuel pos s g k2.
Proof.
  intros Hext. induction fuel as [|fuel IH]; intros pos s g k1 k2 Hk; simpl.
  - by rewrite Hk.
  - rewrite Hk.
    destruct greedy; f_equal; apply Hext; intros p s' g';
      destruct (length s' <? length s); auto.
Qed.

Lemma run_ext r : step_ext (run r).
Proof.
  induction r as [ | p | r1 IH1 r2 IH2 | r1 IH1 | r1 IH1 | r1 IH1 | i r1 IH1 | | ];
    intros pos s g k1 k2 Hk; simpl.
  - apply Hk.
  - destruct s as [|c s']; [reflexivity|]. destruct (p c); [apply Hk | reflexivity].
  - apply IH1. intros p s' g'. by apply IH2.
  - rewrite Hk. f_equal. by apply IH1.
  - by apply star_loop_ext.
  - by apply star_loop_ext.
  - apply IH1. intros p s' g'. apply Hk.
  - destruct (pos =? 0); [apply Hk | reflexivity].
  - destruct (at_end s); [apply Hk | reflexivity].
Qed.

Lemma star_loop_fail step greedy :
  step_ext step -> step_fail step ->
  forall fuel pos s g, star_loop step greedy fuel pos s g (fun _ _ _ => None) = None.
Proof.
  intros Hext Hfail. induction fuel as [|fuel IH]; intros pos s g; simpl.
  - by destruct greedy.
  - rewrite (Hext pos s g _ (fun _ _ _ => None)).
    + rewrite Hfail. by destruct greedy.
    + intros p s' g'. destruct (length s' <? length s); auto.
Qed.

Lemma run_fail r : step_fail (run r).
Proof.
  induction r as [ | p | r1 IH1 r2 IH2 | r1 IH1 | r1 IH1 | r1 IH1 | i r1 IH1 | | ];
    intros pos s g; simpl; try reflexivity.
  - destruct s as [|c s']; [reflexivity|]. by destruct (p c).
  - rewrite (run_ext r1 pos s g _ (fun _ _ _ => None)); [apply IH1|].
    intros p s' g'. apply IH2.
  - by rewrite IH1.
  - apply star_loop_fail; [apply run_ext | exact IH1].
  - apply star_loop_fail; [apply run_ext | exact IH1].
  - apply IH1.
  - by destruct (pos =? 0).
  - by destruct (at_end s).
Qed.

Lemma star_loop_fuel step greedy :
  step_ext step -> step_fail step ->
  forall fuel1 fuel2 pos s g k,
    length s <= fuel1 -> length s <= fuel2 ->
    star_loop step greedy fuel1 pos s g k = star_loop step greedy fuel2 pos s g k.
Proof.
  intros Hext Hfail.
  assert (Hzero : forall fuel pos s g k, length s = 0 ->
            star_loop step greedy fuel pos s g k = star_loop step greedy 0 pos s g k).
  { intros [|fuel] pos s g k Hs; [reflexivity|]. simpl.
    rewrite (Hext pos s g _ (fun _ _ _ => None)).
    - by rewrite Hfail.
    - intros p s' g'. rewrite Hs. reflexivity. }
  induction fuel1 as [|fuel1 IH]; intros fuel2 pos s g k H1 H2.
  - symmetry. apply Hzero. lia.
  - destruct fuel2 as [|fuel2]; [apply Hzero; lia|].
    simpl.
    destruct greedy; f_equal; apply Hext; intros p s' g';
      destruct (length s' <? length s) eqn:Hlt; auto;
      apply Nat.ltb_lt in Hlt; apply IH; lia.
Qed.

Lemma run_star_fuel r n pos s g k :
  star_loop (run r) true (length s + n) pos s g k = run (Star r) pos s g k.
Proof. simpl. apply star_loop_fuel; [apply run_ext | apply run_fail | lia | lia]. Qed.

Lemma run_lazy_fuel r n pos s g k :
  star_loop (run r) false (length s + n) pos s g k = run (LazyStar r) pos s g k.
Proof. simpl. apply star_loop_fuel; [apply run_ext | apply run_fail | lia | lia]. Qed.

(** ** Matches and their spans *)

Lemma matches_Cat_inv r1 r2 w :
  matches (Cat r1 r2) w ->
  exists w1 w2, w = w1 ++ w2 /\ matches r1 w1 /\ matches r2 w2.
Proof. inversion 1; subst; eauto. Qed.

Lemma matches_Cls_inv p w :
  matches (Cls p) w -> exists c, w = [c] /\ p c = true.
Proof. inversion 1; subst; eauto. Qed.

Lemma matches_Opt_inv r w : matches (Opt r) w -> w = [] \/ matches r w.
Proof. inversion 1; subst; eauto. Qed.

Lemma matches_Grp_inv i r w : matches (Grp i r) w -> matches r w.
Proof. inversion 1; subst; eauto. Qed.

Lemma matches_Eps_inv w : matches Eps w -> w = [].
Proof. inversion 1; subst; eauto. Qed.

Lemma matches_min_len r w : matches r w -> min_len r <= length w.
Proof.
  induction 1; simpl; try lia.
  rewrite length_app. lia.
Qed.

Lemma matches_within q r w :
  cls_within q r -> matches r w -> Forall (fun c => q c = true) w.
Proof.
  intros Hq H. induction H; simpl in Hq;
    repeat match goal with
    | |- Forall _ [] => constructor
    | |- Forall _ [_] => constructor; [auto | constructor]
    | |- Forall _ (_ ++ _) => apply Forall_app; split
    | H : _ /\ _ |- _ => destruct H
    end; auto.
Qed.

Lemma match_at_sound r pos s m :
  match_at r pos s = Some m ->
  m_start m = pos /\
  exists w s', s = w ++ s' /\ matches r w /\ m_end m = pos + length w.
Proof.
  unfold match_at. destruct (run r pos s [] accept) as [[e g]|] eqn:H; [|discriminate].
  intros [= <-]. simpl. split; [reflexivity|].
  apply run_sound in H. destruct H as (w & s' & g' & -> & Hw & H).
  unfold accept in H. injection H as <- _. eauto.
Qed.

Lemma match_at_min_len r pos s m :
  match_at r pos s = Some m -> pos + min_len r <= m_end m.
Proof.
  intros H. apply match_at_sound in H. destruct H as (_ & w & s' & _ & Hw & ->).
  apply matches_min_len in Hw. lia.
Qed.

Lemma finditer_from_sound r s :
  forall skip pos m,
    m ∈ finditer_from r skip pos s ->
    exists a w b,
      s = a ++ w ++ b /\ matches r w /\ skip <= length a /\
      m_start m = pos + length a /\ m_end m = pos + length a + length w.
Proof.
  induction s as [|c s' IH]; intros skip pos m Hm.
  - destruct skip as [|skip]; simpl in Hm; [|by apply elem_of_nil in Hm].
    destruct (match_at r pos []) as [m'|] eqn:Hat; [|by apply elem_of_nil in Hm].
    apply list_elem_of_singleton in Hm. subst m'.
    apply match_at_sound in Hat. destruct Hat as (Hs & w & s'' & Hsplit & Hw & He).
    exists [], w, s''. simpl. rewrite Nat.add_0_r. auto with lia.
  - assert (Htail : forall k, m ∈ finditer_from r k (S pos) s' ->
      exists a w b,
        c :: s' = a ++ w ++ b /\ matches r w /\ S k <= length a /\
        m_start m = pos + length a /\ m_end m = pos + length a + length w).
    { intros k Hk. apply IH in Hk. destruct Hk as (a & w & b & -> & Hw & Hle & Hs & He).
      exists (c :: a), w, b. simpl. repeat split; auto; lia. }
    destruct skip as [|skip]; simpl in Hm.
    + destruct (match_at r pos (c :: s')) as [m'|] eqn:Hat.
      * apply elem_of_cons in Hm. destruct Hm as [-> | Hm].
        -- apply match_at_sound in Hat. destruct Hat as (Hs & w & s'' & Hsplit & Hw & He).
           exists [], w, s''. simpl. rewrite Nat.add_0_r. auto with lia.
        -- apply Htail in Hm. destruct Hm as (a & w & b & ? & ? & ? & ? & ?).
           exists a, w, b. auto with lia.
      * apply Htail in Hm. destruct Hm as (a & w & b & ? & ? & ? & ? & ?).
        exists a, w, b. auto with lia.
    + apply Htail in Hm. exact Hm.
Qed.

Lemma finditer_sound r text m :
  m ∈ finditer r text ->
  exists a w b,
    text = a ++ w ++ b /\ matches r w /\
    m_start m = length a /\ m_end m = length a + length w.
Proof.
  intros H. apply finditer_from_sound in H.
  destruct H as (a & w & b & ? & ? & _ & ? & ?). exists a, w, b. auto.
Qed.

Lemma slice_middle (a w b : str) :
  slice (a ++ w ++ b) (length a) (length a + length w) = w.
Proof.
  unfold slice. rewrite drop_app_length.
  replace (length a + length w - length a) with (length w) by lia.
  apply take_app_length.
Qed.

Lemma group0_finditer r text m :
  m ∈ finditer r text ->
  matches r (group0 m text) /\ exists a b, text = a ++ group0 m text ++ b.
Proof.
  intros H. apply finditer_sound in H. destruct H as (a & w & b & -> & Hw & Hs & He).
  unfold group0. rewrite Hs, He, slice_middle. eauto.
Qed.

Lemma finditer_from_head r s :
  forall skip pos m ms,
    finditer_from r skip pos s = m :: ms ->
    pos + skip <= m_start m /\ m_start m <= m_end m.
Proof.
  intros skip pos m ms H.
  assert (Hin : m ∈ finditer_from r skip pos s) by (rewrite H; left).
  apply finditer_from_sound in Hin. destruct Hin as (a & w & b & _ & _ & ? & ? & ?). lia.
Qed.

(** The patterns of the script consume at least one character, so
    [finditer] never meets an empty match on them. *)
Lemma finditer_nonempty r text m :
  0 < min_len r -> m ∈ finditer r text -> m_start m < m_end m.
Proof.
  intros Hr H. apply finditer_sound in H.
  destruct H as (a & w & b & _ & Hw & -> & ->).
  apply matches_min_len in Hw. lia.
Qed.

(** ** Substitution by the empty string *)

Lemma cut_spans_cons ms pos c s' :
  (forall m ms', ms = m :: ms' -> S pos <= m_start m /\ m_start m <= m_end m) ->
  cut_spans ms pos (c :: s') = c :: cut_spans ms (S pos) s'.
Proof.
  destruct ms as [|m ms']; intros H; [reflexivity|].
  destruct (H m ms' eq_refl) as [H1 H2]. simpl.
  replace (m_start m - pos) with (S (m_start m - S pos)) by lia.
  replace (m_end m - pos) with (S (m_end m - S pos)) by lia.
  reflexivity.
Qed.

Lemma cut_finditer r :
  (forall pos s m, match_at r pos s = Some m -> pos < m_end m) ->
  forall s skip pos,
    cut_spans (finditer_from r skip pos s) (pos + skip) (drop skip s)
    = remove_matches r skip pos s.
Proof.
  intros Hne. induction s as [|c s' IH]; intros skip pos.
  - destruct skip as [|skip]; simpl; [|reflexivity].
    destruct (match_at r pos []) as [m|]; simpl; [|reflexivity].
    by rewrite take_nil, drop_nil.
  - destruct skip as [|skip]; simpl.
    + destruct (match_at r pos (c :: s')) as [m|] eqn:Hat.
      * pose proof (Hne _ _ _ Hat) as Hlt.
        apply match_at_sound in Hat. destruct Hat as (Hs & _).
        simpl. rewrite Hs, Nat.add_0_r, Nat.sub_diag. simpl.
        replace (m_end m - pos) with (S (m_end m - pos - 1)) by lia. simpl.
        rewrite <- IH. f_equal; first [lia | f_equal; lia].
      * rewrite Nat.add_0_r. rewrite cut_spans_cons.
        -- f_equal. rewrite <- IH. by rewrite Nat.add_0_r.
        -- intros m ms' Hms. apply finditer_from_head in Hms. lia.
    + rewrite <- IH. f_equal. lia.
Qed.

Lemma re_sub_empty_remove r text :
  0 < min_len r ->
  re_sub_empty r text = remove_matches r 0 0 text.
Proof.
  intros Hr. unfold re_sub_empty, finditer.
  rewrite <- cut_finditer; [reflexivity|].
  intros pos s m H. apply match_at_min_len in H. lia.
Qed.

(** Removing the characters of a class is a filter. *)
Lemma remove_matches_Cls p s :
  forall pos, remove_matches (Cls p) 0 pos s = filter (fun c => p c = false) s.
Proof.
  induction s as [|c s' IH]; intros pos; [reflexivity|].
  simpl. unfold match_at. simpl. destruct (p c) eqn:Hp; simpl.
  - replace (S pos - pos - 1) with 0 by lia.
    rewrite filter_cons_False by congruence. apply IH.
  - rewrite filter_cons_True by assumption. f_equal. apply IH.
Qed.

(** Matching a word is a prefix test. *)
Lemma run_Lit l :
  forall pos s g k,
    run (Lit l) pos s g k
    = if starts_with l s then k (pos + length l) (drop (length l) s) g else None.
Proof.
  induction l as [|c l IH]; intros pos s g k; simpl.
  - rewrite Nat.add_0_r. by destruct s.
  - destruct s as [|x s']; [reflexivity|].
    destruct (c =? x)%N; simpl; [|reflexivity].
    rewrite IH. by rewrite Nat.add_succ_r.
Qed.

Lemma match_at_Lit l pos s :
  match_at (Lit l) pos s
  = if starts_with l s
    then Some {| m_start := pos; m_end := pos + length l; m_groups := [] |}
    else None.
Proof. unfold match_at. rewrite run_Lit. by destruct (starts_with l s). Qed.

Lemma remove_matches_Lit l s :
  forall skip pos, remove_matches (Lit l) skip pos s = remove_from l skip s.
Proof.
  induction s as [|c s' IH]; intros skip pos; [reflexivity|].
  simpl. destruct skip as [|skip]; [|apply IH].
  rewrite match_at_Lit.
  destruct (starts_with l (c :: s')) eqn:Hl; simpl.
  - replace (pos + length l - pos - 1) with (length l - 1) by lia. apply IH.
  - f_equal. apply IH.
Qed.

(** ** Characters *)

Ltac char_unfold :=
  unfold isspace, is_ascii, is_upper_AZ, is_lower_az, ascii_digit,
    not_paren, semi_or_comma, surname_char, ch in *;
  simpl N_of_ascii in *.

Ltac bool_props :=
  repeat first
    [ rewrite orb_true_iff in * | rewrite orb_false_iff in *
    | rewrite andb_true_iff in * | rewrite andb_false_iff in *
    | rewrite negb_true_iff in * | rewrite negb_false_iff in *
    | rewrite N.leb_le in * | rewrite N.leb_gt in *
    | rewrite N.ltb_lt in * | rewrite N.ltb_ge in *
    | rewrite N.eqb_eq in * | rewrite N.eqb_neq in * ].

Ltac char_solve := char_unfold; bool_props; lia.

Lemma ascii_digit_not_space c : ascii_digit c = true -> isspace c = false.
Proof. intros H. char_solve. Qed.

Lemma isdecimal_not_space c : isdecimal c = true -> isspace c = false.
Proof.
  unfold isdecimal. destruct (is_ascii c).
  - apply ascii_digit_not_space.
  - apply unicode_decimal_not_space.
Qed.

Lemma lower_az_not_space c : is_lower_az c = true -> isspace c = false.
Proof. intros H. char_solve. Qed.

Lemma isdecimal_not_paren c : isdecimal c = true -> not_paren c = true.
Proof.
  unfold isdecimal. destruct (is_ascii c) eqn:Ha; intros H.
  - char_solve.
  - clear H. char_solve.
Qed.

Lemma lower_az_not_paren c : is_lower_az c = true -> not_paren c = true.
Proof. intros H. char_solve. Qed.

Lemma semi_or_comma_not_paren c : semi_or_comma c = true -> not_paren c = true.
Proof.
  intros H. char_solve.
Qed.

(** ** Trimming and splitting *)

Lemma rev_reverse (l : str) : rev l = reverse l.
Proof. unfold reverse. apply rev_alt. Qed.

Lemma elem_of_rev (c : N) (l : str) : c ∈ rev l <-> c ∈ l.
Proof. rewrite rev_reverse. apply elem_of_reverse. Qed.

Lemma last_rev (l : str) : last (rev l) = head l.
Proof. rewrite rev_reverse. apply last_reverse. Qed.

Lemma head_rev (l : str) : head (rev l) = last l.
Proof. rewrite rev_reverse. apply head_reverse. Qed.

Lemma lstrip_spec s :
  exists a, s = a ++ lstrip s /\ Forall (fun c => isspace c = true) a.
Proof.
  induction s as [|c s IH]; simpl.
  - exists []. split; [reflexivity | constructor].
  - destruct (isspace c) eqn:Hc.
    + destruct IH as (a & Ha & Hall). exists (c :: a). split.
      * simpl. by rewrite <- Ha.
      * by constructor.
    + exists []. split; [reflexivity | constructor].
Qed.

Lemma lstrip_head s c : head (lstrip s) = Some c -> isspace c = false.
Proof.
  induction s as [|x s IH]; simpl; [discriminate|].
  destruct (isspace x) eqn:Hx; [exact IH|].
  simpl. by intros [= <-].
Qed.

Lemma rstrip_spec s :
  exists b, s = rstrip s ++ b /\ Forall (fun c => isspace c = true) b.
Proof.
  unfold rstrip. destruct (lstrip_spec (rev s)) as (a & Ha & Hall).
  exists (rev a). split.
  - rewrite <- rev_app_distr, <- Ha. by rewrite rev_involutive.
  - apply Forall_forall. intros c Hc. rewrite Forall_forall in Hall.
    apply Hall. by apply elem_of_rev.
Qed.

Lemma rstrip_last s c : last (rstrip s) = Some c -> isspace c = false.
Proof.
  unfold rstrip. rewrite last_rev. apply lstrip_head.
Qed.

Lemma strip_spec s :
  exists a b, s = a ++ strip s ++ b.
Proof.
  unfold strip. destruct (lstrip_spec s) as (a & Ha & _).
  destruct (rstrip_spec (lstrip s)) as (b & Hb & _).
  exists a, b. by rewrite <- Hb.
Qed.

Lemma strip_Forall (P : N -> Prop) s : Forall P s -> Forall P (strip s).
Proof.
  intros H. destruct (strip_spec s) as (a & b & Hs). rewrite Hs in H.
  apply Forall_app in H. destruct H as [_ H].
  apply Forall_app in H. by destruct H.
Qed.

Lemma strip_last s c : last (strip s) = Some c -> isspace c = false.
Proof. apply rstrip_last. Qed.

Lemma strip_head s c : head (strip s) = Some c -> isspace c = false.
Proof.
  unfold strip. intros H.
  destruct (rstrip_spec (lstrip s)) as (b & Hb & _).
  apply (lstrip_head s). rewrite Hb.
  destruct (rstrip (lstrip s)); [discriminate | exact H].
Qed.

(** Trimming keeps a word inside the text that neither starts nor ends
    with white space. *)
Lemma lstrip_keep (a y b : str) c :
  head y = Some c -> isspace c = false ->
  exists a', lstrip (a ++ y ++ b) = a' ++ y ++ b.
Proof.
  intros Hy Hc. induction a as [|x a IH]; simpl.
  - exists []. destruct y as [|c' y]; [discriminate|].
    simpl in Hy. injection Hy as ->. simpl. by rewrite Hc.
  - destruct (isspace x); [exact IH|]. by exists (x :: a).
Qed.

Lemma strip_keep (a y b : str) c1 c2 :
  head y = Some c1 -> isspace c1 = false ->
  last y = Some c2 -> isspace c2 = false ->
  exists a' b', strip (a ++ y ++ b) = a' ++ y ++ b'.
Proof.
  intros H1 Hc1 H2 Hc2. unfold strip.
  destruct (lstrip_keep a y b c1 H1 Hc1) as (a' & ->).
  unfold rstrip. rewrite !rev_app_distr, <- app_assoc.
  destruct (lstrip_keep (rev b) (rev y) (rev a') c2) as (b' & ->).
  - by rewrite head_rev.
  - exact Hc2.
  - exists a', (rev b'). rewrite !rev_app_distr, !rev_involutive.
    by rewrite <- app_assoc.
Qed.

(** The words of [split] are not empty and hold no white space. *)
Lemma split_from_words s :
  forall cur t,
    t ∈ split_from cur s ->
    Forall (fun c => isspace c = false) cur ->
    t <> [] /\ Forall (fun c => isspace c = false) t.
Proof.
  assert (Hrev : forall cur : str, cur <> [] ->
             Forall (fun c => isspace c = false) cur ->
             rev cur <> [] /\ Forall (fun c => isspace c = false) (rev cur)).
  { intros cur Hne Hall. split.
    - intros Hr. apply Hne. rewrite <- (rev_involutive cur). by rewrite Hr.
    - apply Forall_forall. intros c Hc. rewrite Forall_forall in Hall.
      apply Hall. by apply elem_of_rev. }
  induction s as [|c s IH]; intros cur t Ht Hcur; simpl in Ht.
  - destruct cur as [|x cur]; [by apply elem_of_nil in Ht|].
    apply list_elem_of_singleton in Ht. subst t. by apply Hrev.
  - destruct (isspace c) eqn:Hc.
    + destruct cur as [|x cur].
      * by apply (IH []).
      * apply elem_of_cons in Ht. destruct Ht as [-> | Ht].
        -- by apply Hrev.
        -- apply (IH [] t Ht). constructor.
    + apply (IH (c :: cur) t Ht). by constructor.
Qed.

Lemma split_words s t :
  t ∈ split s -> t <> [] /\ Forall (fun c => isspace c = false) t.
Proof. intros H. apply (split_from_words s [] t H). constructor. Qed.

Lemma last_default_elem_of (l : list str) :
  l <> [] -> List.last l [] ∈ l.
Proof.
  induction l as [|x l IH]; [done|]. intros _.
  destruct l as [|y l]; [left|].
  right. change (List.last (x :: y :: l) []) with (List.last (y :: l) []).
  by apply IH.
Qed.

(** ** Citation candidates *)

Ltac inv_matches :=
  repeat match goal with
  | H : matches (Rep _ _) _ |- _ => simpl Rep in H
  | H : matches (Chr _) _ |- _ => unfold Chr in H
  | H : matches (Cat _ _) _ |- _ =>
      apply matches_Cat_inv in H; destruct H as (? & ? & -> & ? & ?)
  | H : matches (Cls _) _ |- _ =>
      apply matches_Cls_inv in H; destruct H as (? & -> & ?)
  | H : matches (Grp _ _) _ |- _ => apply matches_Grp_inv in H
  | H : matches Eps _ |- _ => apply matches_Eps_inv in H; subst
  end.

Lemma year_token_matches y : matches year_token y -> is_year_token y = true.
Proof.
  unfold year_token. intros H. inv_matches.
  match goal with
  | H : matches (Opt _) _ |- _ => apply matches_Opt_inv in H; destruct H as [-> | H]
  end.
  - simpl. rewrite !andb_true_iff. repeat split; assumption.
  - inv_matches. simpl. rewrite !andb_true_iff. repeat split; assumption.
Qed.

Lemma year_token_within : cls_within not_paren year_token.
Proof.
  simpl. repeat split; auto using isdecimal_not_paren, lower_az_not_paren.
Qed.

Lemma year_token_ends y :
  is_year_token y = true ->
  exists c1 c2,
    head y = Some c1 /\ isspace c1 = false /\ last y = Some c2 /\ isspace c2 = false.
Proof.
  destruct y as [|d1 [|d2 [|d3 [|d4 [|l [|x y]]]]]]; simpl; try discriminate; intros H.
  - repeat (apply andb_true_iff in H; destruct H as [H ?]).
    exists d1, d4. auto using isdecimal_not_space.
  - repeat (apply andb_true_iff in H; destruct H as [H ?]).
    exists d1, l. auto using isdecimal_not_space, lower_az_not_space.
Qed.

Lemma has_year_token_strip s : has_year_token s -> has_year_token (strip s).
Proof.
  intros (pre & y & post & -> & Hy).
  destruct (year_token_ends y Hy) as (c1 & c2 & H1 & Hc1 & H2 & Hc2).
  destruct (strip_keep pre y post c1 c2 H1 Hc1 H2 Hc2) as (a' & b' & ->).
  by exists a', y, b'.
Qed.

(** A match of the citation pattern is a parenthesis, a text without
    parentheses that holds a year token, and a closing parenthesis. *)
Lemma citation_pattern_words w :
  matches citation_pattern w ->
  exists mid,
    w = [ch "("] ++ mid ++ [ch ")"] /\
    Forall (fun c => not_paren c = true) mid /\
    has_year_token mid.
Proof.
  unfold citation_pattern. intros H.
  apply matches_Cat_inv in H. destruct H as (w0 & v0 & -> & H0 & H).
  apply matches_Cat_inv in H. destruct H as (w1 & v1 & -> & H1 & H).
  apply matches_Cat_inv in H. destruct H as (w2 & v2 & -> & H2 & H).
  apply matches_Cat_inv in H. destruct H as (w3 & v3 & -> & H3 & H).
  apply matches_Cat_inv in H. destruct H as (w4 & w5 & -> & H4 & H5).
  unfold Chr in H0, H5.
  apply matches_Cls_inv in H0. destruct H0 as (c0 & -> & Hc0).
  apply matches_Cls_inv in H5. destruct H5 as (c5 & -> & Hc5).
  apply N.eqb_eq in Hc0, Hc5. subst c0 c5.
  exists (w1 ++ w2 ++ w3 ++ w4). split; [|split].
  - by rewrite <- !app_assoc.
  - repeat (apply Forall_app; split).
    + apply (matches_within not_paren _ _) in H1; [exact H1 | simpl; auto].
    + apply (matches_within _ _ _ year_token_within H2).
    + apply (matches_within not_paren _ _) in H3; [exact H3 | simpl; auto].
    + refine (matches_within _ _ _ _ H4). simpl.
      repeat split; auto using semi_or_comma_not_paren,
        isdecimal_not_paren, lower_az_not_paren.
  - exists w1, w2, (w3 ++ w4). split; [reflexivity|].
    by apply year_token_matches.
Qed.

Lemma inner_parens (a b : N) (mid : str) : inner ([a] ++ mid ++ [b]) = mid.
Proof.
  unfold inner. simpl. rewrite length_app. simpl.
  replace (length mid + 1 - 0) with (S (length mid)) by lia.
  simpl. rewrite take_app_length. reflexivity.
Qed.

Lemma not_paren_spec c : not_paren c = true -> c <> ch "(" /\ c <> ch ")".
Proof. intros H. char_solve. Qed.

(** C5. Every candidate returned by [extract_citations] holds a year
    token (four digits, then at most one lowercase letter), holds no
    parenthesis, neither starts nor ends with white space, and is the
    trimmed content of a parenthesised stretch of the text. *)
Theorem extract_citations_candidates (text cand : str) :
  cand ∈ extract_citations text ->
  has_year_token cand /\
  Forall (fun c => c <> ch "(" /\ c <> ch ")") cand /\
  (forall c, head cand = Some c -> isspace c = false) /\
  (forall c, last cand = Some c -> isspace c = false) /\
  exists pre mid post,
    text = pre ++ [ch "("] ++ mid ++ [ch ")"] ++ post /\
    Forall (fun c => c <> ch "(" /\ c <> ch ")") mid /\
    cand = strip mid.
Proof.
  unfold extract_citations. intros H.
  apply list_elem_of_fmap in H. destruct H as (raw0 & -> & H).
  apply list_elem_of_fmap in H. destruct H as (m & -> & H).
  apply group0_finditer in H. destruct H as (Hm & pre & post & Htext).
  apply citation_pattern_words in Hm. destruct Hm as (mid & Hw & Hmid & Hy).
  rewrite Hw in Htext |- *. rewrite inner_parens.
  split; [by apply has_year_token_strip|].
  split; [|split; [|split]].
  - apply strip_Forall. eapply Forall_impl; [exact Hmid|]. apply not_paren_spec.
  - apply strip_head.
  - apply strip_last.
  - exists pre, mid, post. split; [|split; [|reflexivity]].
    + rewrite Htext. by rewrite <- !app_assoc.
    + eapply Forall_impl; [exact Hmid|]. apply not_paren_spec.
Qed.

(** ** Author names *)

Lemma re_sub_strange s :
  re_sub_empty strange_char_pattern s = filter (fun c => surname_char c = true) s.
Proof.
  unfold strange_char_pattern.
  rewrite re_sub_empty_remove by (simpl; lia).
  rewrite remove_matches_Cls. apply list_filter_iff.
  intros c. apply negb_false_iff.
Qed.

Lemma re_sub_et_al s :
  re_sub_empty et_al_pattern s = remove_all (u "et al.") s.
Proof.
  unfold et_al_pattern, remove_all.
  rewrite re_sub_empty_remove by (vm_compute; lia).
  apply remove_matches_Lit.
Qed.

(** On a word of [split], the pattern of initials accepts one capital
    letter, then at most one period. *)
Lemma initial_pattern_spec t :
  Forall (fun c => isspace c = false) t ->
  bool_decide (is_Some (re_match initial_pattern t)) = is_initial t.
Proof.
  intros Ht. unfold re_match, match_at, initial_pattern, Chr, is_initial.
  change (ch ".") with 46%N.
  destruct t as [|c [|d [|e t]]]; cbn -[N.eqb is_upper_AZ].
  - reflexivity.
  - destruct (is_upper_AZ c); reflexivity.
  - destruct (is_upper_AZ c); [|reflexivity]. cbn -[N.eqb].
    rewrite (N.eqb_sym d 46).
    destruct (46 =? d)%N eqn:Hd; cbn -[N.eqb]; [reflexivity|].
    apply Forall_cons in Ht as [_ Ht]. apply Forall_cons in Ht as [Hsp _].
    destruct (d =? 10)%N eqn:Hd10; [|reflexivity].
    apply N.eqb_eq in Hd10. rewrite Hd10 in Hsp. vm_compute in Hsp. discriminate.
  - destruct (is_upper_AZ c); [|reflexivity]. cbn -[N.eqb].
    destruct (46 =? d)%N; cbn -[N.eqb]; [|reflexivity].
    destruct t as [|f t]; [|reflexivity].
    apply Forall_cons in Ht as [_ Ht]. apply Forall_cons in Ht as [_ Ht].
    apply Forall_cons in Ht as [Hsp _].
    destruct (e =? 10)%N eqn:He; [|reflexivity].
    apply N.eqb_eq in He. rewrite He in Hsp. vm_compute in Hsp. discriminate.
Qed.

(** C8. After the removal of "et al." and the cut at the first comma, the
    surname is the last word when there are at least two words and the
    first is an initial (one capital letter, then at most one period),
    and the first word otherwise; "X. Li" and "Li, X." both give "li". *)
Theorem normalize_author_surname (author : str) :
  let tokens :=
    split (before_comma (strip (remove_all (u "et al.") (strip author)))) in
  normalize_author author
  = match tokens with
    | [] => []
    | t0 :: _ =>
        lower (filter (fun c => surname_char c = true)
                 (if (2 <=? length tokens) && is_initial t0
                  then List.last tokens []
                  else t0))
    end
  /\ normalize_author (u "X. Li") = u "li"
  /\ normalize_author (u "Li, X.") = u "li".
Proof.
  intros tokens. split; [|split; vm_compute; reflexivity].
  unfold normalize_author. rewrite re_sub_et_al.
  subst tokens.
  destruct (split _) as [|t0 rest] eqn:Hs; [reflexivity|].
  rewrite re_sub_strange. rewrite initial_pattern_spec; [reflexivity|].
  apply (split_words (before_comma (strip (remove_all (u "et al.") (strip author))))).
  rewrite Hs. left.
Qed.

(** The characters of a surname key. *)
Lemma surname_alphabet (tok : str) (c : N) :
  Forall (fun x => isspace x = false) tok ->
  c ∈ lower (filter (fun x => surname_char x = true) tok) ->
  is_lower_az c = true \/ c = ch "-" \/ c = ch "'".
Proof.
  intros Htok Hc.
  assert (Hf : forall x, x ∈ filter (fun x => surname_char x = true) tok ->
             is_upper_AZ x = true \/ is_lower_az x = true \/ x = ch "-" \/ x = ch "'").
  { intros x Hx. apply list_elem_of_filter in Hx. destruct Hx as [Hx Hin].
    rewrite Forall_forall in Htok. specialize (Htok x Hin).
    unfold surname_char in Hx. rewrite Htok, orb_false_r in Hx.
    rewrite !orb_true_iff, !N.eqb_eq in Hx. tauto. }
  unfold lower in Hc.
  assert (Hascii : forallb is_ascii (filter (fun x => surname_char x = true) tok) = true).
  { apply forallb_forall. intros x Hx. apply list_elem_of_In in Hx.
    destruct (Hf x Hx) as [H | [H | [-> | ->]]]; try reflexivity; char_solve. }
  rewrite Hascii in Hc. apply list_elem_of_fmap in Hc. destruct Hc as (x & -> & Hx).
  unfold ascii_lower.
  destruct (Hf x Hx) as [H | [H | [-> | ->]]].
  - rewrite H. left. char_solve.
  - destruct (is_upper_AZ x) eqn:Hu; [char_solve | by left].
  - right; left. reflexivity.
  - right; right. reflexivity.
Qed.

Lemma normalize_author_alphabet (author : str) (c : N) :
  c ∈ normalize_author author ->
  is_lower_az c = true \/ c = ch "-" \/ c = ch "'".
Proof.
  unfold normalize_author.
  set (a := before_comma _).
  destruct (split a) as [|t0 rest] eqn:Hs; [by intros H%elem_of_nil|].
  rewrite re_sub_strange. apply surname_alphabet.
  apply (split_words a). rewrite Hs.
  destruct (_ && _); [|left].
  apply last_default_elem_of. discriminate.
Qed.

(** C10. What [normalize_author] returns holds lowercase letters, hyphens,
    apostrophes and white space only: no digit, no capital letter, no
    period. *)
Theorem normalize_author_chars (author : str) (c : N) :
  c ∈ normalize_author author ->
  (is_lower_az c = true \/ c = ch "-" \/ c = ch "'" \/ isspace c = true)
  /\ isdecimal c = false /\ is_upper_AZ c = false /\ c <> ch ".".
Proof.
  intros H. apply normalize_author_alphabet in H.
  split; [tauto|]. unfold isdecimal.
  assert (Ha : is_ascii c = true) by (destruct H as [H | [-> | ->]]; [char_solve | done | done]).
  rewrite Ha. clear Ha.
  destruct H as [H | [-> | ->]]; [char_solve | done | done].
Qed.

(** ** The removal of "et al." *)

Lemma starts_with_short (w a : str) :
  length a < length w -> starts_with w a = false.
Proof.
  revert a. induction w as [|x w IH]; intros a H; simpl in H; [lia|].
  destruct a as [|y a]; [reflexivity|]. simpl in *.
  rewrite IH by lia. apply andb_false_r.
Qed.

Lemma starts_with_app (w a x : str) :
  length w <= length a -> starts_with w (a ++ x) = starts_with w a.
Proof.
  revert a. induction w as [|c w IH]; intros a H; [reflexivity|].
  destruct a as [|y a]; simpl in H; [lia|]. simpl.
  rewrite IH by lia. reflexivity.
Qed.

Lemma remove_from_skip (w x b : str) :
  remove_from w (length x) (x ++ b) = remove_from w 0 b.
Proof. induction x as [|c x IH]; [reflexivity | exact IH]. Qed.

Lemma remove_all_absent (w s : str) :
  contains w s = false -> remove_all w s = s.
Proof.
  unfold remove_all. induction s as [|c s IH]; intros H; [reflexivity|].
  simpl in H. apply orb_false_iff in H. destruct H as [H1 H2].
  change (remove_from w 0 (c :: s))
    with (if starts_with w (c :: s) then remove_from w (length w - 1) s
          else c :: remove_from w 0 s).
  rewrite H1. f_equal. by apply IH.
Qed.

(** No end of "et al." is a start of it: two occurrences never overlap. *)
Lemma et_al_no_overlap (a b : str) :
  a <> [] -> length a < 6 ->
  starts_with (u "et al.") (a ++ u "et al." ++ b) = false.
Proof.
  change (u "et al.") with [101; 116; 32; 97; 108; 46]%N.
  destruct a as [|c1 [|c2 [|c3 [|c4 [|c5 [|c6 a]]]]]]; simpl length;
    intros Hne Hlen; try done; try lia;
    cbn -[N.eqb];
    repeat match goal with
    | |- context [(?x =? ?y)%N] =>
        lazymatch x with
        | N.pos _ => lazymatch y with N.pos _ => fail | _ => destruct (x =? y)%N end
        end
    end; reflexivity.
Qed.

Lemma remove_from_occurrence (b : str) :
  forall (a : str) (skip : nat),
    skip <= length a ->
    remove_from (u "et al.") skip (a ++ u "et al." ++ b)
    = remove_from (u "et al.") skip a ++ remove_all (u "et al.") b.
Proof.
  induction a as [|c a IH]; intros skip Hskip.
  - simpl in Hskip. replace skip with 0 by lia.
    change ([] ++ u "et al." ++ b) with ([101%N] ++ [116; 32; 97; 108; 46]%N ++ b).
    change (remove_from (u "et al.") 0 [])  with (@nil N).
    change (remove_from (u "et al.") 0 ([101%N] ++ [116; 32; 97; 108; 46]%N ++ b))
      with (remove_from (u "et al.") (length [116; 32; 97; 108; 46]%N)
              ([116; 32; 97; 108; 46]%N ++ b)).
    apply remove_from_skip.
  - destruct skip as [|skip].
    + change (remove_from (u "et al.") 0 ((c :: a) ++ u "et al." ++ b))
        with (if starts_with (u "et al.") ((c :: a) ++ u "et al." ++ b)
              then remove_from (u "et al.") (length (u "et al.") - 1) (a ++ u "et al." ++ b)
              else c :: remove_from (u "et al.") 0 (a ++ u "et al." ++ b)).
      change (remove_from (u "et al.") 0 (c :: a))
        with (if starts_with (u "et al.") (c :: a)
              then remove_from (u "et al.") (length (u "et al.") - 1) a
              else c :: remove_from (u "et al.") 0 a).
      destruct (Nat.lt_ge_cases (length (c :: a)) 6) as [Hlt | Hge].
      * rewrite et_al_no_overlap by (done || exact Hlt).
        rewrite starts_with_short by exact Hlt.
        rewrite IH by lia. reflexivity.
      * rewrite starts_with_app by exact Hge.
        destruct (starts_with (u "et al.") (c :: a)).
        -- apply IH. simpl in Hge. change (length (u "et al.") - 1) with 5. lia.
        -- rewrite IH by lia. reflexivity.
    + simpl in Hskip. apply (IH skip). lia.
Qed.

(** C4, as the code has it. The pattern is "et al." with its period:
    each occurrence is taken out and the text on both sides is treated
    on its own; a text in which "et al." (period included, same case)
    does not occur is left as it is. So "X. Duer et al." gives "duer",
    and "X. Duer et al", without the period, gives "al", as does
    "X. Duer Et Al." with capitals. *)
Theorem et_al_needs_period :
  (forall a b : str,
     re_sub_empty et_al_pattern (a ++ u "et al." ++ b)
     = re_sub_empty et_al_pattern a ++ re_sub_empty et_al_pattern b)
  /\ (forall s : str,
        contains (u "et al.") s = false -> re_sub_empty et_al_pattern s = s)
  /\ normalize_author (u "X. Duer et al.") = u "duer"
  /\ contains (u "et al.") (u "X. Duer et al") = false
  /\ normalize_author (u "X. Duer et al") = u "al"
  /\ normalize_author (u "X. Duer Et Al.") = u "al".
Proof.
  split; [|split; [|split; [|split; [|split]]]].
  - intros a b. rewrite !re_sub_et_al. unfold remove_all.
    apply remove_from_occurrence. lia.
  - intros s H. rewrite re_sub_et_al. by apply remove_all_absent.
  - vm_compute. reflexivity.
  - vm_compute. reflexivity.
  - vm_compute. reflexivity.
  - vm_compute. reflexivity.
Qed.

(** ** Keys and reconciliation *)

Lemma make_key_inj (a a' y y' : str) :
  ch "|" ∉ a -> ch "|" ∉ a' ->
  make_key a y = make_key a' y' -> a = a' /\ y = y'.
Proof.
  unfold make_key. change (u "|") with [124%N]. change (ch "|") with 124%N.
  revert a'. induction a as [|c a IH]; intros [|c' a'] Ha Ha' H; simpl in H.
  - injection H as H. auto.
  - injection H as H _. exfalso. apply Ha'. rewrite H. left.
  - injection H as H _. exfalso. apply Ha. rewrite H. left.
  - injection H as -> H.
    destruct (IH a') as [-> ->]; auto.
    + intros Hin. apply Ha. by right.
    + intros Hin. apply Ha'. by right.
Qed.

Lemma normalize_author_no_bar (author : str) : ch "|" ∉ normalize_author author.
Proof.
  intros H. apply normalize_author_alphabet in H.
  destruct H as [H | [H | H]]; [|discriminate H|discriminate H].
  vm_compute in H. discriminate.
Qed.

(** C1. [missing] is the citation keys without the reference keys and
    [unused] the reference keys without the citation keys; keys are
    compared as strings, and two keys built from normalized surnames are
    the same string only when surname and year (suffix included) are the
    same: "smith|2020" and "smith|2020a" stay apart. *)
Theorem reconcile_exact
    (cit_key_examples : gmap str (gset str)) (ref_keys : gset str) :
  let citation_keys : gset str := dom cit_key_examples in
  reconcile cit_key_examples ref_keys
  = (citation_keys ∖ ref_keys, ref_keys ∖ citation_keys)
  /\ (forall k : str,
        k ∈ (reconcile cit_key_examples ref_keys).1
        <-> is_Some (cit_key_examples !! k) /\ forall r, r ∈ ref_keys -> r <> k)
  /\ (forall k : str,
        k ∈ (reconcile cit_key_examples ref_keys).2
        <-> k ∈ ref_keys /\ cit_key_examples !! k = None)
  /\ (forall a a' y y' : str,
        make_key (normalize_author a) y = make_key (normalize_author a') y'
        <-> normalize_author a = normalize_author a' /\ y = y')
  /\ reconcile {[ u "smith|2020" := {[ u "Smith, 2020" ]} ]} {[ u "smith|2020a" ]}
     = ({[ u "smith|2020" ]}, {[ u "smith|2020a" ]}).
Proof.
  intros citation_keys. subst citation_keys.
  split; [reflexivity|]. split; [|split; [|split]].
  - intros k. unfold reconcile. simpl. rewrite elem_of_difference, elem_of_dom.
    split; intros [H1 H2]; (split; [exact H1|]).
    + intros r Hr ->. by apply H2.
    + intros Hk. by apply (H2 k).
  - intros k. unfold reconcile. simpl. rewrite elem_of_difference, not_elem_of_dom.
    reflexivity.
  - intros a a' y y'. split.
    + apply make_key_inj; apply normalize_author_no_bar.
    + by intros [-> ->].
  - vm_compute. reflexivity.
Qed.

(** ** The two worked examples *)

Lemma has_year_token_digit (s : str) :
  has_year_token s -> existsb isdecimal s = true.
Proof.
  intros (pre & y & post & -> & Hy).
  rewrite existsb_app. apply orb_true_iff. right.
  rewrite existsb_app. apply orb_true_iff. left.
  destruct y as [|d1 [|d2 [|d3 [|d4 [|l [|x y]]]]]]; simpl in Hy; try discriminate;
    rewrite !andb_true_iff in Hy; simpl; apply orb_true_iff; left; tauto.
Qed.

(** C6. On the text of the example the scanner returns the first group
    only; the second group holds no year token. *)
Theorem extract_citations_example :
  extract_citations (u "as shown (Duer et al., 1992; Luo, 2022) and (see discussion)")
  = [u "Duer et al., 1992; Luo, 2022"]
  /\ ~ has_year_token (u "see discussion").
Proof.
  split; [vm_compute; reflexivity|].
  intros H. apply has_year_token_digit in H. vm_compute in H. discriminate.
Qed.

(** C7. On the candidate of the example the pattern matches the segments
    "Allan, 1999" and "Allan and Jones, 1999" and nothing else, so the
    only key is "allan|1999". *)
Theorem build_citation_keys_example :
  let cit := u "Allan, 1999, Allan and Jones, 1999, Allan 2000a, Allan 2000b" in
  dom (build_citation_keys [cit]) = ({[ u "allan|1999" ]} : gset str)
  /\ build_citation_keys [cit] = {[ u "allan|1999" := {[ cit ]} ]}
  /\ map (fun m => (group m 1 cit, group m 2 cit)) (finditer author_year_pattern cit)
     = [(u "Allan", u "1999"); (u "Allan and Jones", u "1999")].
Proof.
  intros cit. subst cit.
  assert (H : build_citation_keys
                [u "Allan, 1999, Allan and Jones, 1999, Allan 2000a, Allan 2000b"]
              = {[ u "allan|1999" :=
                   {[ u "Allan, 1999, Allan and Jones, 1999, Allan 2000a, Allan 2000b" ]} ]})
    by (vm_compute; reflexivity).
  split; [|split].
  - rewrite H. apply dom_singleton_L.
  - exact H.
  - vm_compute. reflexivity.
Qed.

(** ** The reference list *)

Lemma starts_with_spec (kw s : str) :
  starts_with kw s = true <-> exists b, s = kw ++ b.
Proof.
  revert s. induction kw as [|k kw IH]; intros s; simpl.
  - split; [by exists s | reflexivity].
  - destruct s as [|c s].
    + split; [discriminate | by intros (b & Hb)].
    + rewrite andb_true_iff, N.eqb_eq, IH. split.
      * intros (-> & b & ->). by exists b.
      * intros (b & Hb). injection Hb as -> ->. split; [reflexivity | by exists b].
Qed.

Lemma contains_spec (kw s : str) :
  contains kw s = true <-> exists a b, s = a ++ kw ++ b.
Proof.
  induction s as [|c s IH].
  - simpl. rewrite orb_false_r, starts_with_spec. split.
    + intros (b & Hb). by exists [], b.
    + intros (a & b & Hab). destruct a; [by exists b|discriminate].
  - change (contains kw (c :: s)) with (starts_with kw (c :: s) || contains kw s).
    rewrite orb_true_iff, starts_with_spec, IH. split.
    + intros [(b & Hb) | (a & b & ->)]; [by exists [], b | by exists (c :: a), b].
    + intros (a & b & Hab). destruct a as [|x a].
      * left. by exists b.
      * right. injection Hab as -> ->. by exists a, b.
Qed.

Lemma contains_rev (kw s : str) : contains (rev kw) (rev s) = contains kw s.
Proof.
  apply eq_iff_eq_true. rewrite !contains_spec. split.
  - intros (a & b & H). exists (rev b), (rev a).
    rewrite <- (rev_involutive s), H, !rev_app_distr, rev_involutive.
    by rewrite <- app_assoc.
  - intros (a & b & ->). exists (rev b), (rev a).
    rewrite !rev_app_distr. by rewrite <- app_assoc.
Qed.

(** Trimming does not change whether a text holds a word that neither
    starts nor ends with white space. *)
Lemma contains_lstrip (kw s : str) (k : N) :
  head kw = Some k -> isspace k = false ->
  contains kw (lstrip s) = contains kw s.
Proof.
  intros Hk Hsp. induction s as [|c s IH]; [reflexivity|].
  simpl lstrip. destruct (isspace c) eqn:Hc; [|reflexivity].
  rewrite IH. change (contains kw (c :: s)) with (starts_with kw (c :: s) || contains kw s).
  destruct kw as [|k' kw]; [discriminate|]. injection Hk as ->. simpl.
  destruct (N.eqb_spec k c) as [-> | _]; [congruence | reflexivity].
Qed.

Lemma contains_strip (kw s : str) (k1 k2 : N) :
  head kw = Some k1 -> isspace k1 = false ->
  last kw = Some k2 -> isspace k2 = false ->
  contains kw (strip s) = contains kw s.
Proof.
  intros H1 Hs1 H2 Hs2. unfold strip, rstrip.
  rewrite <- contains_rev, rev_involutive.
  rewrite (contains_lstrip (rev kw) _ k2) by (by rewrite ?head_rev).
  rewrite contains_rev. by apply (contains_lstrip kw s k1).
Qed.

Lemma ascii_lower_space (c : N) : isspace (ascii_lower c) = isspace c.
Proof.
  unfold ascii_lower. destruct (is_upper_AZ c) eqn:Hu; [|reflexivity].
  assert (H1 : isspace c = false) by char_solve.
  assert (H2 : isspace (c + 32) = false) by char_solve.
  by rewrite H1, H2.
Qed.

Lemma lstrip_map_lower (s : str) :
  lstrip (map ascii_lower s) = map ascii_lower (lstrip s).
Proof.
  induction s as [|c s IH]; [reflexivity|]. simpl.
  rewrite ascii_lower_space. destruct (isspace c); [exact IH | reflexivity].
Qed.

Lemma strip_map_lower (s : str) :
  strip (map ascii_lower s) = map ascii_lower (strip s).
Proof.
  unfold strip, rstrip.
  rewrite lstrip_map_lower, <- map_rev, lstrip_map_lower, map_rev. reflexivity.
Qed.

Lemma strip_ascii (s : str) : forallb is_ascii s = true -> forallb is_ascii (strip s) = true.
Proof.
  rewrite !forallb_forall. intros H c Hc. apply H.
  destruct (strip_spec s) as (a & b & Hs). rewrite Hs.
  apply in_or_app. right. apply in_or_app. by left.
Qed.

(** On ASCII text the heading test gives the same answer on the
    paragraph and on its trimmed text. *)
Lemma is_heading_strip (p : str) :
  forallb is_ascii p = true -> is_heading (strip p) = is_heading p.
Proof.
  intros Hp. unfold is_heading, lower.
  rewrite Hp, (strip_ascii p Hp), <- strip_map_lower.
  assert (Hkw : forallb (fun kw =>
                  match head kw, last kw with
                  | Some k1, Some k2 => negb (isspace k1) && negb (isspace k2)
                  | _, _ => false
                  end) heading_keywords = true) by (vm_compute; reflexivity).
  induction heading_keywords as [|kw kws IH]; [reflexivity|].
  simpl in Hkw. apply andb_true_iff in Hkw. destruct Hkw as [Hk Hkws].
  simpl. rewrite (IH Hkws). f_equal.
  destruct (head kw) as [k1|] eqn:H1; [|discriminate].
  destruct (last kw) as [k2|] eqn:H2; [|discriminate].
  apply andb_true_iff in Hk. destruct Hk as [Hs1 Hs2].
  apply negb_true_iff in Hs1, Hs2.
  by apply (contains_strip kw _ k1 k2).
Qed.

Lemma reference_loop_started (texts refs : list str) :
  reference_loop true refs texts
  = refs ++ filter (fun t => nonempty t = true) (map strip texts).
Proof.
  revert refs. induction texts as [|p rest IH]; intros refs; simpl.
  - by rewrite app_nil_r.
  - destruct (strip p) as [|c t] eqn:Hp.
    + rewrite IH. rewrite filter_cons_False by (simpl; congruence). reflexivity.
    + rewrite IH. rewrite filter_cons_True by reflexivity.
      by rewrite <- app_assoc.
Qed.

Lemma reference_loop_no_heading (texts refs : list str) :
  Forall (fun p => is_heading (strip p) = false) texts ->
  reference_loop false refs texts = refs.
Proof.
  induction 1 as [|p rest Hp _ IH]; simpl; [reflexivity|].
  rewrite Hp. exact IH.
Qed.

Lemma reference_loop_heading (before after refs : list str) (h : str) :
  Forall (fun p => is_heading (strip p) = false) before ->
  is_heading (strip h) = true ->
  reference_loop false refs (before ++ h :: after) = reference_loop true refs after.
Proof.
  intros Hb Hh. induction Hb as [|p rest Hp _ IH]; simpl.
  - by rewrite Hh.
  - rewrite Hp. exact IH.
Qed.

Lemma first_heading (texts : list str) :
  Forall (fun p => is_heading (strip p) = false) texts
  \/ exists before h after,
       texts = before ++ h :: after /\
       Forall (fun p => is_heading (strip p) = false) before /\
       is_heading (strip h) = true.
Proof.
  induction texts as [|p rest IH]; [left; constructor|].
  destruct (is_heading (strip p)) eqn:Hp.
  - right. exists [], p, rest. repeat split; [constructor | exact Hp].
  - destruct IH as [IH | (before & h & after & -> & Hb & Hh)].
    + left. by constructor.
    + right. exists (p :: before), h, after. repeat split; [by constructor | exact Hh].
Qed.

(** C9. The locator returns the trimmed texts, those that are not empty,
    of the paragraphs after the first one whose trimmed, lower-cased text
    holds a heading keyword; it returns the empty list when no paragraph
    does. One of the two cases applies to every sequence of paragraphs.
    (The code tests the trimmed text; on ASCII text the test gives the same
    answer on the paragraph as it stands.) *)
Theorem extract_reference_paragraphs_spec (texts : list str) :
  (forall before h after,
     texts = before ++ h :: after ->
     Forall (fun p => is_heading (strip p) = false) before ->
     is_heading (strip h) = true ->
     extract_reference_paragraphs texts
     = filter (fun t => nonempty t = true) (map strip after))
  /\ (Forall (fun p => is_heading (strip p) = false) texts ->
      extract_reference_paragraphs texts = [])
  /\ (Forall (fun p => is_heading (strip p) = false) texts
      \/ exists before h after,
           texts = before ++ h :: after /\
           Forall (fun p => is_heading (strip p) = false) before /\
           is_heading (strip h) = true)
  /\ (forall p, forallb is_ascii p = true -> is_heading (strip p) = is_heading p).
Proof.
  unfold extract_reference_paragraphs. split; [|split; [|split]].
  - intros before h after -> Hb Hh.
    rewrite reference_loop_heading by assumption.
    apply reference_loop_started.
  - apply reference_loop_no_heading.
  - apply first_heading.
  - apply is_heading_strip.
Qed.

(** ** Reference entries *)

Lemma parse_from_step (i : nat) (text : str) (rest : list str) :
  (keyable text = true /\
   exists e, index e = i /\ raw e = text /\
             parse_from i (text :: rest) = e :: parse_from (S i) rest)
  \/ (keyable text = false /\ parse_from i (text :: rest) = parse_from (S i) rest).
Proof.
  unfold keyable. cbn [parse_from].
  destruct (re_search year_pattern text) as [m|]; [|right; split; reflexivity].
  destruct (normalize_author (strip (before_first (ch ",") text))) as [|c a].
  - right. split; reflexivity.
  - left. split; [reflexivity|].
    eexists. split; [|split; [|reflexivity]]; reflexivity.
Qed.

Lemma parse_from_sound (ls : list str) :
  forall i e,
    e ∈ parse_from i ls ->
    exists j, index e = i + j /\ ls !! j = Some (raw e) /\ keyable (raw e) = true.
Proof.
  induction ls as [|text rest IH]; intros i e He; [by apply elem_of_nil in He|].
  assert (Hrest : e ∈ parse_from (S i) rest ->
    exists j, index e = i + j /\ (text :: rest) !! j = Some (raw e)
              /\ keyable (raw e) = true).
  { intros H. apply IH in H. destruct H as (j & Hj & Hl & Hk).
    exists (S j). repeat split; [lia | exact Hl | exact Hk]. }
  destruct (parse_from_step i text rest) as [(Hk & e0 & Hi & Hr & Hp) | (Hk & Hp)];
    rewrite Hp in He; [|by apply Hrest].
  apply elem_of_cons in He. destruct He as [-> | He]; [|by apply Hrest].
  exists 0. rewrite Hi, Hr, Nat.add_0_r. auto.
Qed.

Lemma parse_from_complete (ls : list str) :
  forall i j t,
    ls !! j = Some t -> keyable t = true ->
    exists e, e ∈ parse_from i ls /\ index e = i + j /\ raw e = t.
Proof.
  induction ls as [|text rest IH]; intros i j t Hj Ht; [discriminate|].
  destruct j as [|j]; simpl in Hj.
  - injection Hj as ->.
    destruct (parse_from_step i t rest) as [(_ & e0 & Hi & Hr & Hp) | (Hk & _)];
      [rewrite Hp|congruence].
    exists e0. rewrite Nat.add_0_r. repeat split; [left | exact Hi | exact Hr].
  - destruct (IH (S i) j t Hj Ht) as (e & He & Hi & Hr).
    exists e. repeat split; [|lia|exact Hr].
    destruct (parse_from_step i text rest) as [(_ & e0 & _ & _ & Hp) | (_ & Hp)];
      rewrite Hp; [by right | exact He].
Qed.

Lemma parse_from_sorted (ls : list str) :
  forall i,
    StronglySorted lt (map index (parse_from i ls))
    /\ Forall (fun k => i <= k) (map index (parse_from i ls)).
Proof.
  induction ls as [|text rest IH]; intros i; [split; constructor|].
  destruct (IH (S i)) as [Hs Hb].
  assert (Hb' : Forall (fun k => i <= k) (map index (parse_from (S i) rest))).
  { eapply Forall_impl; [exact Hb|]. simpl. lia. }
  destruct (parse_from_step i text rest) as [(_ & e0 & Hi & _ & Hp) | (_ & Hp)];
    rewrite Hp; [|by split].
  simpl. rewrite Hi. split; constructor; auto.
Qed.

(** C3, as the code has it. The index of an entry is the position of its
    line in the sequence given to the parser (the counter of
    [enumerate]): every entry sits at its index in that sequence, every
    line that can be keyed has an entry with its own position, and the
    indices increase strictly. A dropped line takes its index with it:
    after a line without a year, the first entry has index 1. *)
Theorem parse_reference_entries_index (ref_lines : list str) :
  (forall e, e ∈ parse_reference_entries ref_lines ->
     ref_lines !! index e = Some (raw e) /\ keyable (raw e) = true)
  /\ (forall i t, ref_lines !! i = Some t -> keyable t = true ->
        exists e, e ∈ parse_reference_entries ref_lines /\ index e = i /\ raw e = t)
  /\ StronglySorted lt (map index (parse_reference_entries ref_lines))
  /\ map index (parse_reference_entries [u "Untitled note"; u "Duer, A. 1992. Title."])
     = [1].
Proof.
  unfold parse_reference_entries. split; [|split; [|split]].
  - intros e He. apply parse_from_sound in He.
    destruct He as (j & Hj & Hl & Hk). simpl in Hj. by rewrite Hj.
  - intros i t Hi Ht. apply (parse_from_complete ref_lines 0 i t Hi Ht).
  - apply parse_from_sorted.
  - vm_compute. reflexivity.
Qed.

(** ** The verdict *)

Lemma good_line_not_errors : good_line <> errors_line.
Proof.
  intros H. apply (f_equal (fun l : str => l !! 41)) in H.
  vm_compute in H. discriminate.
Qed.

Lemma main_ref_lines (doc : document) :
  ref_lines (main doc) = extract_reference_paragraphs (paragraphs doc).
Proof.
  unfold main.
  destruct (extract_reference_paragraphs (paragraphs doc)) eqn:H; [reflexivity|].
  destruct (reconcile _ _). reflexivity.
Qed.

(** C2, as the code has it. When a reference list was found, the last
    line of the report says that consistency is good exactly when no key
    is missing; unused reference entries do not change it. In particular
    it says so when nothing is missing and nothing is unused. *)
Theorem overall_line_good (doc : document) :
  ref_lines (main doc) <> [] ->
  (overall_line (main doc) = good_line <-> missing_keys (main doc) = ∅)
  /\ (missing_keys (main doc) = ∅ /\ unused_keys (main doc) = ∅ ->
      overall_line (main doc) = good_line)
  /\ (missing_keys (main doc) <> ∅ -> overall_line (main doc) = errors_line).
Proof.
  intros Hrefs. unfold overall_line.
  pose proof good_line_not_errors as Hlines.
  set (good := good_line) in *. set (errors := errors_line) in *.
  clearbody good errors.
  destruct (ref_lines (main doc)) as [|l ls]; [by destruct Hrefs|].
  destruct (decide (missing_keys (main doc) = ∅)) as [He | Hne].
  - rewrite bool_decide_false by (intros H; exact (H He)).
    split; [|split]; [tauto | tauto | intros H; destruct (H He)].
  - rewrite bool_decide_true by exact Hne.
    split; [|split]; [|tauto|tauto].
    split; [|tauto]. intros H. destruct (Hlines (eq_sym H)).
Qed.

(** ** More on the matcher: groups left alone, and completeness *)

Lemma star_loop_plain L step greedy :
  step_plain L step ->
  forall fuel pos s g k res,
    star_loop step greedy fuel pos s g k = Some res ->
    exists w s', s = w ++ s' /\ iter L w /\ k (pos + length w) s' g = Some res.
Proof.
  intros Hstep. induction fuel as [|fuel IH]; intros pos s g k res H.
  - exists [], s. rewrite Nat.add_0_r. simpl in H.
    destruct greedy; simpl in H; (split; [reflexivity | split; [constructor | ]]).
    + exact H.
    + destruct (k pos s g); [exact H | discriminate].
  - assert (Hnil : k pos s g = Some res ->
      exists w s', s = w ++ s' /\ iter L w /\ k (pos + length w) s' g = Some res).
    { intros Hk. exists [], s. rewrite Nat.add_0_r.
      split; [reflexivity | split; [constructor | exact Hk]]. }
    assert (Hmore : step pos s g (fun pos' s' g' =>
               if length s' <? length s
               then star_loop step greedy fuel pos' s' g' k else None) = Some res ->
      exists w s', s = w ++ s' /\ iter L w /\ k (pos + length w) s' g = Some res).
    { intros Hs. apply Hstep in Hs. destruct Hs as (w1 & s1 & -> & Hw1 & Hs).
      destruct (length s1 <? length (w1 ++ s1)); [|discriminate].
      apply IH in Hs. destruct Hs as (w2 & s2 & -> & Hw2 & Hk).
      exists (w1 ++ w2), s2. split; [by rewrite app_assoc|].
      split; [by constructor|].
      rewrite length_app, Nat.add_assoc. exact Hk. }
    simpl in H. destruct greedy; apply or_else_Some in H;
      destruct H as [H | [_ H]]; auto.
Qed.

Lemma run_plain r : group_free r = true -> step_plain (matches r) (run r).
Proof.
  induction r as [ | p | r1 IH1 r2 IH2 | r1 IH1 | r1 IH1 | r1 IH1 | i r1 IH1 | | ];
    intros Hr pos s g k res H; simpl in Hr, H.
  - exists [], s. rewrite Nat.add_0_r. repeat split; [constructor | exact H].
  - destruct s as [|c s']; [discriminate|].
    destruct (p c) eqn:Hp; [|discriminate].
    exists [c], s'. simpl. rewrite Nat.add_1_r.
    repeat split; [by constructor | exact H].
  - apply andb_true_iff in Hr. destruct Hr as [Hr1 Hr2].
    apply (IH1 Hr1) in H. destruct H as (w1 & s1 & -> & Hw1 & H).
    apply (IH2 Hr2) in H. destruct H as (w2 & s2 & -> & Hw2 & H).
    exists (w1 ++ w2), s2. split; [by rewrite app_assoc|].
    split; [by constructor|]. rewrite length_app, Nat.add_assoc. exact H.
  - apply or_else_Some in H. destruct H as [H | [_ H]].
    + apply (IH1 Hr) in H. destruct H as (w & s' & -> & Hw & H).
      exists w, s'. repeat split; [by apply M_Opt_some | exact H].
    + exists [], s. rewrite Nat.add_0_r. repeat split; [apply M_Opt_none | exact H].
  - apply (star_loop_plain (matches r1)) in H; [|exact (IH1 Hr)].
    destruct H as (w & s' & -> & Hw & H).
    exists w, s'. repeat split; [by apply iter_star | exact H].
  - apply (star_loop_plain (matches r1)) in H; [|exact (IH1 Hr)].
    destruct H as (w & s' & -> & Hw & H).
    exists w, s'. repeat split; [by apply iter_lazy | exact H].
  - discriminate.
  - destruct (pos =? 0); [|discriminate].
    exists [], s. rewrite Nat.add_0_r. repeat split; [constructor | exact H].
  - destruct (at_end s); [|discriminate].
    exists [], s. rewrite Nat.add_0_r. repeat split; [constructor | exact H].
Qed.

Lemma or_else_is_Some_l {A} (a b : option A) : is_Some a -> is_Some (or_else a b).
Proof. intros [x ->]. by exists x. Qed.

Lemma or_else_is_Some_r {A} (a b : option A) : is_Some b -> is_Some (or_else a b).
Proof. intros Hb. destruct a as [x|]; [by exists x | exact Hb]. Qed.

Lemma star_loop_complete L step greedy :
  step_complete L step ->
  forall w, iter L w ->
  forall fuel pos s' g (k : cont),
    length (w ++ s') <= fuel ->
    (forall g', is_Some (k (pos + length w) s' g')) ->
    is_Some (star_loop step greedy fuel pos (w ++ s') g k).
Proof.
  intros Hstep w Hw. induction Hw as [|w1 w2 Hw1 Hw2 IH]; intros fuel pos s' g k Hfuel Hk.
  - simpl in Hk. rewrite Nat.add_0_r in Hk.
    destruct fuel; simpl; destruct greedy;
      first [apply Hk | apply or_else_is_Some_r; apply Hk
            | apply or_else_is_Some_l; apply Hk].
  - destruct w1 as [|c w1].
    { simpl. apply IH; [exact Hfuel | exact Hk]. }
    destruct fuel as [|fuel]; [simpl in Hfuel; lia|].
    assert (Hagain : is_Some (step pos (((c :: w1) ++ w2) ++ s') g
              (fun pos' s'' g' =>
                 if length s'' <? length (((c :: w1) ++ w2) ++ s')
                 then star_loop step greedy fuel pos' s'' g' k else None))).
    { rewrite <- app_assoc. apply (Hstep (c :: w1) Hw1). intros g'.
      replace (length (w2 ++ s') <? length ((c :: w1) ++ w2 ++ s')) with true
        by (symmetry; apply Nat.ltb_lt; rewrite !length_app; simpl; lia).
      apply IH.
      - rewrite <- app_assoc in Hfuel. rewrite !length_app in *. simpl in Hfuel. lia.
      - intros g''. rewrite <- Nat.add_assoc, <- length_app. apply Hk. }
    simpl star_loop. destruct greedy.
    + by apply or_else_is_Some_l.
    + by apply or_else_is_Some_r.
Qed.

(** The matcher finds a match whenever the text starts with a word of the
    pattern and the rest is accepted. *)
Lemma run_complete r : anchor_free r = true -> step_complete (matches r) (run r).
Proof.
  induction r as [ | p | r1 IH1 r2 IH2 | r1 IH1 | r1 IH1 | r1 IH1 | i r1 IH1 | | ];
    intros Hr w Hw pos s' g k Hk; simpl in Hr.
  - apply matches_Eps_inv in Hw. subst w. simpl in *.
    rewrite Nat.add_0_r in Hk. apply Hk.
  - apply matches_Cls_inv in Hw. destruct Hw as (c & -> & Hc). simpl. rewrite Hc.
    rewrite Nat.add_1_r in Hk. apply Hk.
  - apply andb_true_iff in Hr. destruct Hr as [Hr1 Hr2].
    apply matches_Cat_inv in Hw. destruct Hw as (w1 & w2 & -> & Hw1 & Hw2).
    simpl. rewrite <- app_assoc. apply (IH1 Hr1 w1 Hw1). intros g'.
    apply (IH2 Hr2 w2 Hw2). intros g''.
    rewrite <- Nat.add_assoc, <- length_app. apply Hk.
  - simpl. apply matches_Opt_inv in Hw. destruct Hw as [-> | Hw].
    + apply or_else_is_Some_r. simpl in *. rewrite Nat.add_0_r in Hk. apply Hk.
    + apply or_else_is_Some_l. by apply (IH1 Hr w Hw).
  - simpl. apply star_iter in Hw.
    apply (star_loop_complete (matches r1)); [exact (IH1 Hr) | exact Hw | lia | exact Hk].
  - simpl. apply lazy_iter in Hw.
    apply (star_loop_complete (matches r1)); [exact (IH1 Hr) | exact Hw | lia | exact Hk].
  - simpl. apply matches_Grp_inv in Hw. apply (IH1 Hr w Hw). intros g'. apply Hk.
  - discriminate.
  - discriminate.
Qed.

Lemma match_at_complete r pos w s' :
  anchor_free r = true -> matches r w -> is_Some (match_at r pos (w ++ s')).
Proof.
  intros Hr Hw. unfold match_at.
  destruct (run_complete r Hr w Hw pos s' [] accept) as [[e g] ->].
  - intros g'. by eexists.
  - by eexists.
Qed.

(** [re.search] returns the match at the first position that has one. *)
Lemma search_from_leftmost r s :
  forall pos m,
    search_from r pos s = Some m ->
    exists a b,
      s = a ++ b /\ match_at r (pos + length a) b = Some m /\
      forall a1 a2, a = a1 ++ a2 -> a2 <> [] ->
                    match_at r (pos + length a1) (a2 ++ b) = None.
Proof.
  induction s as [|c s IH]; intros pos m H; simpl in H.
  - destruct (match_at r pos []) as [m'|] eqn:Hat; [|discriminate].
    injection H as ->. exists [], []. rewrite Nat.add_0_r.
    repeat split; [exact Hat|]. intros a1 a2 Ha Hne.
    destruct a1; destruct a2; try discriminate. by destruct Hne.
  - destruct (match_at r pos (c :: s)) as [m'|] eqn:Hat.
    + injection H as ->. exists [], (c :: s). rewrite Nat.add_0_r.
      repeat split; [exact Hat|]. intros a1 a2 Ha Hne.
      destruct a1; destruct a2; try discriminate. by destruct Hne.
    + apply IH in H. destruct H as (a & b & -> & Hm & Hnone).
      exists (c :: a), b. simpl. rewrite Nat.add_succ_r. repeat split; [exact Hm|].
      intros a1 a2 Ha Hne. destruct a1 as [|x a1].
      * simpl in Ha. subst a2. simpl. rewrite Nat.add_0_r. exact Hat.
      * injection Ha as -> ->. simpl. rewrite Nat.add_succ_r.
        by apply Hnone.
Qed.

Lemma search_from_None r s :
  forall pos a b,
    search_from r pos s = None -> s = a ++ b ->
    match_at r (pos + length a) b = None.
Proof.
  induction s as [|c s IH]; intros pos a b H Hs; simpl in H.
  - destruct a; [|discriminate]. simpl in Hs. subst b. rewrite Nat.add_0_r.
    by destruct (match_at r pos []).
  - destruct (match_at r pos (c :: s)) as [m'|] eqn:Hat; [discriminate|].
    destruct a as [|x a].
    + simpl in Hs. subst b. by rewrite Nat.add_0_r.
    + injection Hs as -> ->. simpl. rewrite Nat.add_succ_r.
      by apply (IH (S pos) a b).
Qed.

(** [re.finditer] reports a match when no earlier match runs over its
    start. *)
Lemma finditer_from_reach r (s : str) (m : match_obj) :
  forall (a : str) skip pos,
    skip <= length a ->
    (forall a1 a2 m', a = a1 ++ a2 -> a2 <> [] ->
       match_at r (pos + length a1) (a2 ++ s) = Some m' ->
       m_end m' <= pos + length a) ->
    match_at r (pos + length a) s = Some m ->
    m ∈ finditer_from r skip pos (a ++ s).
Proof.
  induction a as [|c a IH]; intros skip pos Hskip Hearly Hm.
  - simpl in *. rewrite Nat.add_0_r in Hm. replace skip with 0 by lia.
    destruct s; simpl; rewrite Hm; left.
  - assert (Hnext : forall k, k <= length a -> m ∈ finditer_from r k (S pos) (a ++ s)).
    { intros k Hk. apply IH; [exact Hk | | ].
      - intros a1 a2 m' Ha Hne Hat.
        specialize (Hearly (c :: a1) a2 m'). simpl in Hearly.
        rewrite Nat.add_succ_r in Hearly. simpl in Hat.
        subst a. specialize (Hearly eq_refl Hne Hat). simpl. lia.
      - simpl in Hm. by rewrite Nat.add_succ_r in Hm. }
    destruct skip as [|skip]; simpl.
    + destruct (match_at r pos (c :: a ++ s)) as [m'|] eqn:Hat.
      * right. apply Hnext.
        specialize (Hearly [] (c :: a) m' eq_refl). simpl in Hearly.
        rewrite Nat.add_0_r in Hearly. specialize (Hearly ltac:(discriminate) Hat). lia.
      * apply Hnext. lia.
    + apply Hnext. simpl in Hskip. lia.
Qed.

(** ** Citation candidates: what is found *)

Lemma iter_cls (p : N -> bool) (w : str) :
  Forall (fun c => p c = true) w -> iter (matches (Cls p)) w.
Proof.
  induction 1 as [|c w Hc _ IH]; [constructor|].
  change (c :: w) with ([c] ++ w). constructor; [by constructor | exact IH].
Qed.

Lemma year_token_of (y : str) : is_year_token y = true -> matches year_token y.
Proof.
  unfold year_token.
  destruct y as [|d1 [|d2 [|d3 [|d4 [|l [|x y]]]]]]; simpl; try discriminate; intros H;
    rewrite !andb_true_iff in H.
  - change [d1; d2; d3; d4] with (([d1] ++ [d2] ++ [d3] ++ [d4] ++ []) ++ []).
    constructor; [|apply M_Opt_none].
    repeat (constructor; [constructor; tauto|]). constructor.
  - change [d1; d2; d3; d4; l] with (([d1] ++ [d2] ++ [d3] ++ [d4] ++ []) ++ [l]).
    constructor; [|apply M_Opt_some; constructor; tauto].
    repeat (constructor; [constructor; tauto|]). constructor.
Qed.

Lemma citation_pattern_matches (mid : str) :
  Forall (fun c => not_paren c = true) mid ->
  has_year_token mid ->
  matches citation_pattern ([ch "("] ++ mid ++ [ch ")"]).
Proof.
  intros Hmid (a & y & b & -> & Hy).
  apply Forall_app in Hmid. destruct Hmid as [Ha Hmid].
  apply Forall_app in Hmid. destruct Hmid as [_ Hb].
  unfold citation_pattern.
  constructor; [constructor; apply N.eqb_refl|].
  rewrite <- !app_assoc.
  constructor; [apply iter_lazy; by apply iter_cls|].
  constructor; [by apply year_token_of|].
  constructor; [apply iter_lazy; by apply iter_cls|].
  change [ch ")"] with ([] ++ [ch ")"]).
  constructor; [apply M_Star_nil|]. constructor. apply N.eqb_refl.
Qed.

Lemma first_stop (c : N) (a a' r r' : str) :
  c ∉ a -> c ∉ a' -> a ++ c :: r = a' ++ c :: r' -> a = a'.
Proof.
  revert a'. induction a as [|x a IH]; intros [|x' a'] Ha Ha' H; simpl in H.
  - reflexivity.
  - injection H as -> _. exfalso. apply Ha'. left.
  - injection H as -> _. exfalso. apply Ha. left.
  - injection H as -> H. f_equal. apply (IH a'); [| |exact H].
    + intros Hin. apply Ha. by right.
    + intros Hin. apply Ha'. by right.
Qed.

Lemma not_paren_open (w : str) :
  Forall (fun c => not_paren c = true) w -> ch "(" ∉ w.
Proof.
  intros H Hin. rewrite Forall_forall in H. specialize (H _ Hin).
  vm_compute in H. discriminate.
Qed.

Lemma not_paren_close (w : str) :
  Forall (fun c => not_paren c = true) w -> ch ")" ∉ w.
Proof.
  intros H Hin. rewrite Forall_forall in H. specialize (H _ Hin).
  vm_compute in H. discriminate.
Qed.

(** A match of the citation pattern that starts at a flat group is that
    group. *)
Lemma citation_match_is_group (w s' mid post : str) :
  matches citation_pattern w ->
  Forall (fun c => not_paren c = true) mid ->
  w ++ s' = [ch "("] ++ mid ++ [ch ")"] ++ post ->
  w = [ch "("] ++ mid ++ [ch ")"].
Proof.
  intros Hw Hmid Heq. apply citation_pattern_words in Hw.
  destruct Hw as (mid' & -> & Hmid' & _).
  pose proof (not_paren_close mid Hmid) as Hc.
  pose proof (not_paren_close mid' Hmid') as Hc'.
  change (ch "(") with 40%N in *. change (ch ")") with 41%N in *.
  rewrite <- !app_assoc in Heq. cbn [app] in Heq. injection Heq as Heq.
  apply first_stop in Heq; [by subst mid' | exact Hc' | exact Hc].
Qed.

(** A match of the citation pattern stops before the next opening
    parenthesis. *)
Lemma citation_match_stops (a2 w s' rest : str) :
  matches citation_pattern w ->
  w ++ s' = a2 ++ ch "(" :: rest ->
  a2 <> [] ->
  length w <= length a2.
Proof.
  intros Hw Heq Hne. apply citation_pattern_words in Hw.
  destruct Hw as (mid' & -> & Hmid' & _).
  pose proof (not_paren_open mid' Hmid') as Hopen.
  change (ch "(") with 40%N in *. change (ch ")") with 41%N in *.
  symmetry in Heq. apply app_eq_inv in Heq.
  destruct Heq as [(k & Ha2 & _) | (k & Hw & Hk)].
  - rewrite Ha2. rewrite !length_app. lia.
  - destruct k as [|x k].
    + rewrite app_nil_r in Hw. by rewrite Hw.
    + cbn [app] in Hk. injection Hk as Hx _. subst x. exfalso.
      destruct a2 as [|c a2]; [done|]. cbn [app] in Hw. injection Hw as _ Hw.
      assert (Hin : 40%N ∈ mid' ++ [41%N]).
      { rewrite Hw. apply elem_of_app. right. left. }
      apply elem_of_app in Hin. destruct Hin as [Hin | Hin].
      * by apply Hopen.
      * apply list_elem_of_singleton in Hin. discriminate.
Qed.

Lemma citation_group_found (pre mid post : str) :
  Forall (fun c => not_paren c = true) mid ->
  has_year_token mid ->
  strip mid ∈ extract_citations (pre ++ [ch "("] ++ mid ++ [ch ")"] ++ post).
Proof.
  intros Hmid Hy.
  set (s := [ch "("] ++ mid ++ [ch ")"] ++ post).
  destruct (match_at_complete citation_pattern (length pre)
              ([ch "("] ++ mid ++ [ch ")"]) post eq_refl
              (citation_pattern_matches mid Hmid Hy)) as [m Hm].
  rewrite <- !app_assoc in Hm. fold s in Hm.
  pose proof (match_at_sound _ _ _ _ Hm) as (Hstart & w & s' & Hs & Hw & Hend).
  assert (Hwm : w = [ch "("] ++ mid ++ [ch ")"]).
  { apply (citation_match_is_group w s' mid post Hw Hmid). by rewrite <- Hs. }
  assert (Hin : m ∈ finditer citation_pattern (pre ++ s)).
  { unfold finditer. apply finditer_from_reach; [lia | | exact Hm].
    intros a1 a2 m' -> Hne Hat.
    apply match_at_sound in Hat. destruct Hat as (_ & w' & s'' & Heq & Hw' & ->).
    rewrite length_app. simpl.
    assert (length w' <= length a2); [|lia].
    apply (citation_match_stops a2 w' s'' (mid ++ [ch ")"] ++ post) Hw'); [|exact Hne].
    by rewrite <- Heq. }
  unfold extract_citations.
  apply list_elem_of_fmap. exists (group0 m (pre ++ s)). split.
  - unfold group0. rewrite Hstart, Hend, Hs, slice_middle, Hwm.
    by rewrite inner_parens.
  - apply list_elem_of_fmap. by exists m.
Qed.

Lemma flat_not_paren (mid : str) :
  Forall (fun c => c <> ch "(" /\ c <> ch ")") mid ->
  Forall (fun c => not_paren c = true) mid.
Proof.
  intros H. eapply Forall_impl; [exact H|]. intros c [H1 H2]. char_solve.
Qed.

(** X2. Every parenthesised stretch without inner parentheses that holds a
    year token is reported, trimmed, whatever surrounds it. *)
Theorem extract_citations_finds (pre mid post : str) :
  Forall (fun c => c <> ch "(" /\ c <> ch ")") mid ->
  has_year_token mid ->
  strip mid ∈ extract_citations (pre ++ [ch "("] ++ mid ++ [ch ")"] ++ post).
Proof.
  intros Hmid Hy. apply flat_not_paren in Hmid.
  by apply citation_group_found.
Qed.

(** X3. A text without a digit, or without an opening parenthesis, gives no
    candidate. *)
Theorem extract_citations_none (text : str) :
  existsb isdecimal text = false \/ has_char (ch "(") text = false ->
  extract_citations text = [].
Proof.
  intros Hno. unfold extract_citations.
  destruct (finditer citation_pattern text) as [|m ms] eqn:Hf; [reflexivity|].
  exfalso.
  assert (Hm : m ∈ finditer citation_pattern text) by (rewrite Hf; left).
  apply group0_finditer in Hm. destruct Hm as (Hm & a & b & Htext).
  apply citation_pattern_words in Hm. destruct Hm as (mid & Hw & _ & Hy).
  rewrite Hw in Htext. destruct Hno as [Hd | Hp].
  - apply has_year_token_digit in Hy. apply existsb_exists in Hy.
    destruct Hy as (x & Hx & Hdx).
    assert (Ht : existsb isdecimal text = true); [|congruence].
    apply existsb_exists. exists x. split; [|exact Hdx].
    rewrite Htext. apply in_or_app. right. apply in_or_app. left.
    apply in_or_app. right. apply in_or_app. by left.
  - assert (Ht : has_char (ch "(") text = true); [|congruence].
    apply existsb_exists. exists (ch "("). split; [|apply N.eqb_refl].
    rewrite Htext. apply in_or_app. right. apply in_or_app. left. by left.
Qed.

(** ** The text of a document *)

Lemma join_lines_block (parts : list str) (p : str) :
  p ∈ parts -> exists A B, join_lines parts = A ++ p ++ B.
Proof.
  induction parts as [|q parts IH]; intros Hp; [by apply elem_of_nil in Hp|].
  apply elem_of_cons in Hp.
  destruct parts as [|q' parts].
  - destruct Hp as [-> | Hp]; [|by apply elem_of_nil in Hp].
    exists [], []. simpl. by rewrite app_nil_r.
  - change (join_lines (q :: q' :: parts))
      with (q ++ 10%N :: join_lines (q' :: parts)).
    destruct Hp as [-> | Hp].
    + exists [], (10%N :: join_lines (q' :: parts)). reflexivity.
    + destruct (IH Hp) as (A & B & ->).
      exists (q ++ 10%N :: A), B. by rewrite <- app_assoc.
Qed.

Lemma join_lines_nil (parts : list str) :
  Forall (fun t => nonempty t = true) parts ->
  join_lines parts = [] -> parts = [].
Proof.
  intros Hall H. destruct parts as [|q [|q' parts]]; [reflexivity| |].
  - simpl in H. subst q. apply Forall_cons in Hall. by destruct Hall.
  - change (join_lines (q :: q' :: parts))
      with (q ++ 10%N :: join_lines (q' :: parts)) in H.
    by destruct q.
Qed.

Lemma elem_of_concat {A} (x : A) (ls : list (list A)) :
  x ∈ concat ls <-> exists l, x ∈ l /\ l ∈ ls.
Proof.
  rewrite list_elem_of_In, in_concat. split.
  - intros (l & Hl & Hx). exists l. by rewrite !list_elem_of_In.
  - intros (l & Hx & Hl). exists l. by rewrite <- !list_elem_of_In.
Qed.

Lemma extract_text_block (doc : document) (p : str) :
  p <> [] ->
  (p ∈ paragraphs doc
   \/ exists table row, table ∈ tables doc /\ row ∈ table /\ p ∈ row) ->
  exists A B, extract_text_from_docx doc = A ++ p ++ B.
Proof.
  unfold extract_text_from_docx. intros Hne Hp. apply join_lines_block.
  assert (Hn : nonempty p = true) by (by destruct p).
  apply elem_of_app. destruct Hp as [Hp | (table & row & Ht & Hr & Hp)].
  - left. by apply list_elem_of_filter.
  - right. apply list_elem_of_filter. split; [exact Hn|].
    apply elem_of_concat. exists row. split; [exact Hp|].
    apply elem_of_concat. by exists table.
Qed.

(** X1. No text is lost: every paragraph and every table cell that is not
    empty stands, as it is, in the text; and the text is empty only when
    all of them are. *)
Theorem extract_text_keeps_blocks (doc : document) :
  (forall p : str,
     p <> [] ->
     (p ∈ paragraphs doc
      \/ exists table row, table ∈ tables doc /\ row ∈ table /\ p ∈ row) ->
     exists A B, extract_text_from_docx doc = A ++ p ++ B)
  /\ (extract_text_from_docx doc = [] <->
      Forall (fun p => p = []) (paragraphs doc)
      /\ Forall (Forall (Forall (fun p => p = []))) (tables doc)).
Proof.
  split; [apply extract_text_block|].
  unfold extract_text_from_docx. split.
  - intros H. apply join_lines_nil in H.
    + apply app_eq_nil in H. destruct H as [H1 H2]. split.
      * apply Forall_forall. intros p Hp. destruct p as [|c p]; [reflexivity|].
        assert (Hin : (c :: p) ∈ filter (fun t => nonempty t = true) (paragraphs doc))
          by (by apply list_elem_of_filter).
        rewrite H1 in Hin. by apply elem_of_nil in Hin.
      * apply Forall_forall. intros table Ht.
        apply Forall_forall. intros row Hr.
        apply Forall_forall. intros p Hp. destruct p as [|c p]; [reflexivity|].
        assert (Hin : (c :: p) ∈ filter (fun t => nonempty t = true)
                                   (concat (concat (tables doc)))).
        { apply list_elem_of_filter. split; [reflexivity|].
          apply elem_of_concat. exists row. split; [exact Hp|].
          apply elem_of_concat. by exists table. }
        rewrite H2 in Hin. by apply elem_of_nil in Hin.
    + apply Forall_app. split; apply Forall_forall; intros t Ht;
        by apply list_elem_of_filter in Ht as [Ht _].
  - intros [H1 H2].
    assert (Hps : filter (fun t => nonempty t = true) (paragraphs doc) = []).
    { apply elem_of_nil_inv. intros p Hp. apply list_elem_of_filter in Hp.
      destruct Hp as [Hn Hp]. rewrite Forall_forall in H1.
      rewrite (H1 p Hp) in Hn. discriminate. }
    assert (Hc : filter (fun t => nonempty t = true) (concat (concat (tables doc))) = []).
    { apply elem_of_nil_inv. intros p Hp. apply list_elem_of_filter in Hp.
      destruct Hp as [Hn Hp].
      apply elem_of_concat in Hp. destruct Hp as (row & Hp & Hr).
      apply elem_of_concat in Hr. destruct Hr as (table & Hr & Ht).
      rewrite Forall_forall in H2. specialize (H2 table Ht).
      rewrite Forall_forall in H2. specialize (H2 row Hr).
      rewrite Forall_forall in H2. rewrite (H2 p Hp) in Hn. discriminate. }
    by rewrite Hps, Hc.
Qed.

(** ** More on trimming and splitting *)

Lemma lstrip_id (s : str) :
  (forall c, head s = Some c -> isspace c = false) -> lstrip s = s.
Proof.
  destruct s as [|c s]; [reflexivity|]. intros H. simpl.
  by rewrite (H c eq_refl).
Qed.

Lemma rstrip_id (s : str) :
  (forall c, last s = Some c -> isspace c = false) -> rstrip s = s.
Proof.
  intros H. unfold rstrip. rewrite lstrip_id; [apply rev_involutive|].
  intros c Hc. rewrite head_rev in Hc. by apply H.
Qed.

Lemma strip_id (s : str) :
  Forall (fun c => isspace c = false) s -> strip s = s.
Proof.
  intros H. rewrite Forall_forall in H. unfold strip.
  rewrite lstrip_id.
  - apply rstrip_id. intros c Hc. apply H. by apply last_Some_elem_of.
  - intros c Hc. apply H. destruct s; [discriminate|]. injection Hc as ->. left.
Qed.

Lemma strip_idem (s : str) : strip (strip s) = strip s.
Proof.
  unfold strip at 1. rewrite lstrip_id by apply strip_head.
  apply rstrip_id. apply strip_last.
Qed.

Lemma lstrip_spaces (a s : str) :
  Forall (fun c => isspace c = true) a -> lstrip (a ++ s) = lstrip s.
Proof. induction 1 as [|c a Hc _ IH]; [reflexivity|]. simpl. by rewrite Hc. Qed.

Lemma rstrip_spaces (s b : str) :
  Forall (fun c => isspace c = true) b -> rstrip (s ++ b) = rstrip s.
Proof.
  intros Hb. unfold rstrip. rewrite rev_app_distr, lstrip_spaces; [reflexivity|].
  apply Forall_forall. intros c Hc. rewrite Forall_forall in Hb.
  apply Hb. by apply elem_of_rev.
Qed.

Lemma strip_spaces (a s b : str) :
  Forall (fun c => isspace c = true) a ->
  Forall (fun c => isspace c = true) b ->
  strip (a ++ s ++ b) = strip s.
Proof.
  intros Ha Hb. unfold strip. rewrite lstrip_spaces by exact Ha.
  induction s as [|c s IH]; simpl.
  - rewrite <- (app_nil_r b), lstrip_spaces by exact Hb. reflexivity.
  - destruct (isspace c); [exact IH|].
    change (c :: s ++ b) with ((c :: s) ++ b). by apply rstrip_spaces.
Qed.

Lemma strip_keep_prefix (y b : str) (c1 c2 : N) :
  head y = Some c1 -> isspace c1 = false ->
  last y = Some c2 -> isspace c2 = false ->
  exists b', strip (y ++ b) = y ++ b'.
Proof.
  intros H1 Hc1 H2 Hc2. unfold strip.
  rewrite lstrip_id.
  - unfold rstrip. rewrite rev_app_distr.
    destruct (lstrip_keep (rev b) (rev y) [] c2) as (a' & Ha').
    + by rewrite head_rev.
    + exact Hc2.
    + rewrite app_nil_r in Ha'. rewrite Ha', rev_app_distr, rev_involutive.
      by exists (rev a').
  - intros c Hc. destruct y as [|x y]; [discriminate|].
    simpl in *. congruence.
Qed.

Lemma split_from_word (x : str) :
  Forall (fun c => isspace c = false) x ->
  forall cur,
    split_from cur x = match rev cur ++ x with [] => [] | t => [t] end.
Proof.
  induction 1 as [|c x Hc _ IH]; intros cur; simpl.
  - rewrite app_nil_r. destruct cur as [|d cur]; [reflexivity|].
    simpl. destruct (rev cur ++ [d]) eqn:E; [|reflexivity].
    by destruct (rev cur).
  - rewrite Hc, IH. simpl. by rewrite <- app_assoc.
Qed.

Lemma split_word (x : str) :
  x <> [] -> Forall (fun c => isspace c = false) x -> split x = [x].
Proof.
  intros Hne Hx. unfold split. rewrite (split_from_word x Hx []). simpl.
  by destruct x.
Qed.

Lemma before_first_stop (c : N) (w r : str) :
  c ∉ w -> before_first c (w ++ c :: r) = w.
Proof.
  induction w as [|x w IH]; intros Hc; simpl.
  - by rewrite N.eqb_refl.
  - destruct (N.eqb_spec x c) as [-> | _].
    + exfalso. apply Hc. left.
    + f_equal. apply IH. intros Hin. apply Hc. by right.
Qed.

(** ** More on author names *)

Lemma normalize_author_word (author x : str) :
  before_comma (strip (remove_all (u "et al.") (strip author))) = x ->
  x <> [] -> Forall (fun c => isspace c = false) x ->
  normalize_author author = lower (filter (fun c => surname_char c = true) x).
Proof.
  intros Hx Hne Hsp. unfold normalize_author.
  rewrite re_sub_et_al, Hx, (split_word x Hne Hsp). cbn [length Nat.leb andb].
  by rewrite re_sub_strange.
Qed.

(** X4. White space around the name does not matter, and a name of white
    space only gives the empty key. *)
Theorem normalize_author_trims (a s b : str) :
  Forall (fun c => isspace c = true) a ->
  Forall (fun c => isspace c = true) b ->
  normalize_author (a ++ s ++ b) = normalize_author s
  /\ normalize_author (a ++ b) = [].
Proof.
  intros Ha Hb. split.
  - unfold normalize_author. by rewrite (strip_spaces a s b Ha Hb).
  - change (a ++ b) with (a ++ [] ++ b).
    unfold normalize_author. rewrite (strip_spaces a [] b Ha Hb). reflexivity.
Qed.

Lemma filter_all (P : N -> Prop) `{forall c, Decision (P c)} (x : str) :
  Forall P x -> filter P x = x.
Proof.
  induction 1 as [|c x Hc _ IH]; [reflexivity|].
  rewrite filter_cons_True by exact Hc. by rewrite IH.
Qed.

Lemma et_al_needs_space (x : str) :
  32%N ∉ x -> contains (u "et al.") x = false.
Proof.
  intros Hx. destruct (contains (u "et al.") x) eqn:Hc; [|reflexivity].
  apply contains_spec in Hc. destruct Hc as (a & b & ->). exfalso. apply Hx.
  apply elem_of_app. right. apply elem_of_app. left.
  change (u "et al.") with [101; 116; 32; 97; 108; 46]%N.
  right. right. left.
Qed.

(** X5. A key is left as it is by the normalizer. *)
Theorem normalize_author_idempotent (author : str) :
  normalize_author (normalize_author author) = normalize_author author.
Proof.
  set (x := normalize_author author).
  assert (Hx : forall c, c ∈ x ->
            is_lower_az c = true \/ c = ch "-" \/ c = ch "'")
    by (intros c; apply normalize_author_alphabet).
  clearbody x.
  destruct x as [|c0 x0] eqn:Ex; [vm_compute; reflexivity|]. rewrite <- Ex in *.
  assert (Hne : x <> []) by (by rewrite Ex).
  clear Ex c0 x0.
  assert (Hsp : Forall (fun c => isspace c = false) x).
  { apply Forall_forall. intros c Hc.
    destruct (Hx c Hc) as [H | [-> | ->]]; [char_solve | done | done]. }
  assert (H32 : 32%N ∉ x).
  { intros Hc. destruct (Hx _ Hc) as [H | [H | H]]; vm_compute in H; discriminate. }
  assert (Hcomma : has_char (ch ",") x = false).
  { destruct (has_char (ch ",") x) eqn:E; [|reflexivity].
    apply existsb_exists in E. destruct E as (c & Hc & E).
    apply N.eqb_eq in E. subst c. apply list_elem_of_In in Hc.
    destruct (Hx _ Hc) as [H | [H | H]]; vm_compute in H; discriminate. }
  rewrite (normalize_author_word x x); [| |exact Hne|exact Hsp].
  - rewrite filter_all.
    + unfold lower.
      assert (Ha : forallb is_ascii x = true).
      { apply forallb_forall. intros c Hc. apply list_elem_of_In in Hc.
        destruct (Hx c Hc) as [H | [-> | ->]]; [char_solve | done | done]. }
      rewrite Ha. clear Ha. induction x as [|c x IH]; [reflexivity|].
      simpl. f_equal.
      * unfold ascii_lower.
        destruct (is_upper_AZ c) eqn:Hu; [|reflexivity].
        destruct (Hx c ltac:(left)) as [H | [-> | ->]]; [char_solve | done | done].
      * destruct x as [|c' x]; [reflexivity|]. apply IH; try done.
        -- intros d Hd. apply Hx. by right.
        -- by apply Forall_cons in Hsp as [_ Hsp].
        -- intros Hd. apply H32. by right.
        -- simpl in Hcomma. apply orb_false_iff in Hcomma. by destruct Hcomma.
    + apply Forall_forall. intros c Hc. unfold surname_char.
      destruct (Hx c Hc) as [H | [-> | ->]]; [|done|done].
      rewrite H. by rewrite orb_true_r.
  - rewrite (strip_id x Hsp), (remove_all_absent _ _ (et_al_needs_space x H32)).
    rewrite (strip_id x Hsp). unfold before_comma. by rewrite Hcomma.
Qed.

Lemma letter_not_space (c : N) : is_letter c = true -> isspace c = false.
Proof. unfold is_letter. intros H. char_solve. Qed.

Lemma et_al_not_in_word (w r : str) :
  Forall (fun c => is_letter c = true) w ->
  starts_with (u "et al.") (w ++ ch "," :: r) = false.
Proof.
  change (u "et al.") with [101; 116; 32; 97; 108; 46]%N.
  change (ch ",") with 44%N.
  intros Hw. destruct w as [|c1 [|c2 [|c3 w]]]; cbn -[N.eqb].
  - reflexivity.
  - by rewrite andb_false_r.
  - by rewrite !andb_false_r.
  - apply Forall_cons in Hw as [_ Hw]. apply Forall_cons in Hw as [_ Hw].
    apply Forall_cons in Hw as [H3 _].
    assert (E : (32 =? c3)%N = false).
    { apply N.eqb_neq. intros <-. vm_compute in H3. discriminate. }
    rewrite E. by rewrite !andb_false_r.
Qed.

Lemma remove_all_word (w r : str) :
  Forall (fun c => is_letter c = true) w ->
  remove_all (u "et al.") (w ++ ch "," :: r)
  = w ++ ch "," :: remove_all (u "et al.") r.
Proof.
  unfold remove_all. induction 1 as [|c w Hc Hw IH].
  - change (remove_from (u "et al.") 0 ([] ++ ch "," :: r))
      with (if starts_with (u "et al.") ([] ++ ch "," :: r)
            then remove_from (u "et al.") (length (u "et al.") - 1) r
            else ch "," :: remove_from (u "et al.") 0 r).
    by rewrite (et_al_not_in_word [] r).
  - change (remove_from (u "et al.") 0 ((c :: w) ++ ch "," :: r))
      with (if starts_with (u "et al.") ((c :: w) ++ ch "," :: r)
            then remove_from (u "et al.") (length (u "et al.") - 1) (w ++ ch "," :: r)
            else c :: remove_from (u "et al.") 0 (w ++ ch "," :: r)).
    rewrite (et_al_not_in_word (c :: w) r) by (by constructor).
    by rewrite IH.
Qed.

(** X6. "Surname, Initials": when the name starts with a word of letters
    followed by a comma, the key is that word in lower case, whatever
    comes after the comma. *)
Theorem normalize_author_surname_first (w rest : str) :
  w <> [] ->
  Forall (fun c => is_letter c = true) w ->
  normalize_author (w ++ ch "," :: rest) = map ascii_lower w.
Proof.
  intros Hne Hw.
  assert (Hsp : Forall (fun c => isspace c = false) w).
  { eapply Forall_impl; [exact Hw|]. apply letter_not_space. }
  assert (Hhead : exists c1, head (w ++ [ch ","]) = Some c1 /\ isspace c1 = false).
  { destruct w as [|c w]; [done|]. exists c. split; [reflexivity|].
    by apply Forall_cons in Hsp as [Hc _]. }
  destruct Hhead as (c1 & Hh & Hc1).
  assert (Hlast : last (w ++ [ch ","]) = Some (ch ",")) by apply last_snoc.
  assert (Hkeep : forall r, exists r', strip (w ++ ch "," :: r) = w ++ ch "," :: r').
  { intros r.
    destruct (strip_keep_prefix (w ++ [ch ","]) r c1 (ch ",") Hh Hc1 Hlast eq_refl)
      as (r' & Hr').
    exists r'. by rewrite <- !app_assoc in Hr'. }
  assert (Hcomma : ch "," ∉ w).
  { intros Hin. rewrite Forall_forall in Hw. specialize (Hw _ Hin).
    vm_compute in Hw. discriminate. }
  destruct (Hkeep rest) as (r1 & Hr1).
  destruct (Hkeep (remove_all (u "et al.") r1)) as (r2 & Hr2).
  rewrite (normalize_author_word _ w); [| |exact Hne|exact Hsp].
  - rewrite filter_all.
    + unfold lower.
      replace (forallb is_ascii w) with true; [reflexivity|].
      symmetry. apply forallb_forall. intros c Hc. apply list_elem_of_In in Hc.
      rewrite Forall_forall in Hw. specialize (Hw c Hc).
      unfold is_letter in Hw. char_solve.
    + eapply Forall_impl; [exact Hw|]. intros c Hc. unfold surname_char.
      unfold is_letter in Hc. by rewrite Hc.
  - rewrite Hr1, (remove_all_word w r1 Hw), Hr2. unfold before_comma.
    replace (has_char (ch ",") (w ++ ch "," :: r2)) with true.
    + rewrite (before_first_stop _ w r2 Hcomma). by apply strip_id.
    + symmetry. apply existsb_exists. exists (ch ","). split; [|apply N.eqb_refl].
      apply in_or_app. right. by left.
Qed.

(** ** Matches with their groups *)

Lemma finditer_from_at r s :
  forall skip pos m,
    m ∈ finditer_from r skip pos s ->
    exists a b, s = a ++ b /\ match_at r (pos + length a) b = Some m.
Proof.
  induction s as [|c s IH]; intros skip pos m Hm.
  - destruct skip as [|skip]; simpl in Hm; [|by apply elem_of_nil in Hm].
    destruct (match_at r pos []) as [m'|] eqn:Hat; [|by apply elem_of_nil in Hm].
    apply list_elem_of_singleton in Hm. subst m'.
    exists [], []. by rewrite Nat.add_0_r.
  - assert (Htail : forall k, m ∈ finditer_from r k (S pos) s ->
      exists a b, c :: s = a ++ b /\ match_at r (pos + length a) b = Some m).
    { intros k Hk. apply IH in Hk. destruct Hk as (a & b & -> & Hat).
      exists (c :: a), b. simpl. by rewrite Nat.add_succ_r. }
    destruct skip as [|skip]; simpl in Hm; [|by apply (Htail skip)].
    destruct (match_at r pos (c :: s)) as [m'|] eqn:Hat; [|by apply (Htail 0)].
    apply elem_of_cons in Hm. destruct Hm as [-> | Hm]; [|by eapply Htail].
    exists [], (c :: s). by rewrite Nat.add_0_r.
Qed.

Lemma slice_at (x w z : str) (p q : nat) :
  p = length x -> q = length x + length w -> slice (x ++ w ++ z) p q = w.
Proof. intros -> ->. apply slice_middle. Qed.

Lemma run_Cat r1 r2 pos s g k :
  run (Cat r1 r2) pos s g k
  = run r1 pos s g (fun pos' s' g' => run r2 pos' s' g' k).
Proof. reflexivity. Qed.

Lemma run_Grp i r pos s g k :
  run (Grp i r) pos s g k
  = run r pos s g (fun pos' s' g' => k pos' s' ((i, (pos, pos')) :: g')).
Proof. reflexivity. Qed.

Lemma run_Star r pos s g k :
  run (Star r) pos s g k = star_loop (run r) true (length s) pos s g k.
Proof. reflexivity. Qed.

Lemma run_LazyStar r pos s g k :
  run (LazyStar r) pos s g k = star_loop (run r) false (length s) pos s g k.
Proof. reflexivity. Qed.

Lemma run_Chr c pos s g k :
  run (Chr c) pos s g k
  = match s with
    | x :: s' => if (c =? x)%N then k (S pos) s' g else None
    | [] => None
    end.
Proof. reflexivity. Qed.

(** What a match of the year pattern holds: its group is the year token
    it starts at. *)
Lemma year_pattern_at (pos : nat) (b : str) (m : match_obj) :
  match_at year_pattern pos b = Some m ->
  exists y post,
    b = y ++ post /\ is_year_token y = true /\
    m_end m = pos + length y /\
    m_groups m = [(1, (pos, pos + length y))].
Proof.
  unfold match_at, year_pattern.
  destruct (run _ pos b [] accept) as [[e gs]|] eqn:H; [|discriminate].
  intros [= <-]. cbn [m_groups m_end].
  rewrite run_Grp in H.
  apply (run_plain year_token eq_refl) in H.
  destruct H as (y & post & -> & Hy & H). unfold accept in H. injection H as <- <-.
  exists y, post. repeat split. by apply year_token_matches.
Qed.

(** The year group takes the letter after the four digits when there is
    one: the last item of a pattern, it is never given back. *)
Lemma year_group_run (i pos : nat) (b : str) (g : groups) (e : nat) (gs : groups) :
  run (Grp i year_token) pos b g accept = Some (e, gs) ->
  exists y post,
    b = y ++ post /\ is_year_token y = true /\
    gs = (i, (pos, pos + length y)) :: g /\
    (forall c, head post = Some c -> is_lower_az c = true -> length y = 5).
Proof.
  unfold year_token.
  destruct b as [|d1 [|d2 [|d3 [|d4 rest]]]]; simpl;
    repeat match goal with
    | |- context [if isdecimal ?d then _ else _] => destruct (isdecimal d) eqn:?
    end; try discriminate.
  destruct rest as [|c rest]; simpl.
  - intros [= <- <-]. exists [d1; d2; d3; d4], []. simpl.
    repeat split; try discriminate.
    + rewrite !andb_true_iff; repeat split; assumption.
    + repeat f_equal; lia.
  - destruct (is_lower_az c) eqn:Hc; simpl; intros [= <- <-].
    + exists [d1; d2; d3; d4; c], rest. simpl. repeat split.
      * rewrite !andb_true_iff; repeat split; assumption.
      * repeat f_equal; lia.
    + exists [d1; d2; d3; d4], (c :: rest). simpl. repeat split.
      * rewrite !andb_true_iff; repeat split; assumption.
      * repeat f_equal; lia.
      * intros c' [= <-] Hc'. congruence.
Qed.

(** What a match of the author-year pattern holds: a capital letter and
    a stretch without comma (group 1), a comma, white space, and a year
    token (group 2). *)
Lemma author_year_at (pos : nat) (b : str) (m : match_obj) :
  match_at author_year_pattern pos b = Some m ->
  exists c g ws y post,
    b = (c :: g) ++ [ch ","] ++ ws ++ y ++ post /\
    is_upper_AZ c = true /\ (ch "," ∉ g) /\
    Forall (fun x => isspace x = true) ws /\
    is_year_token y = true /\
    m_groups m = [(2, (pos + length (c :: g) + 1 + length ws,
                       pos + length (c :: g) + 1 + length ws + length y));
                  (1, (pos, pos + length (c :: g)))] /\
    (forall x, head post = Some x -> is_lower_az x = true -> length y = 5).
Proof.
  unfold match_at, author_year_pattern.
  destruct (run _ pos b [] accept) as [[e gs]|] eqn:H; [|discriminate].
  intros [= <-]. cbn [m_groups].
  rewrite run_Cat, run_Grp, run_Cat in H.
  apply (run_plain (Cls is_upper_AZ) eq_refl) in H.
  destruct H as (w0 & s0 & -> & Hw0 & H). cbv beta in H.
  apply matches_Cls_inv in Hw0. destruct Hw0 as (c & -> & Hc).
  rewrite run_LazyStar in H.
  apply (star_loop_plain (matches (Cls (fun c => negb (c =? ch ",")%N)))) in H;
    [|apply (run_plain (Cls _) eq_refl)].
  destruct H as (g & s1 & -> & Hg & H). cbv beta in H.
  rewrite run_Cat, run_Chr in H.
  destruct s1 as [|x s1]; [discriminate|].
  destruct (ch "," =? x)%N eqn:Hx; [|discriminate]. apply N.eqb_eq in Hx. subst x.
  rewrite run_Cat, run_Star in H.
  apply (star_loop_plain (matches (Cls isspace))) in H;
    [|apply (run_plain (Cls _) eq_refl)].
  destruct H as (ws & s2 & -> & Hws & H). cbv beta in H.
  apply year_group_run in H.
  destruct H as (y & post & -> & Hy & -> & Hgreedy).
  exists c, g, ws, y, post.
  split; [|split; [exact Hc|split; [|split; [|split; [exact Hy|split; [|exact Hgreedy]]]]]].
  - by rewrite <- ?app_assoc.
  - clear -Hg. induction Hg as [|w1 w2 Hw1 _ IH].
    + intros H. by apply elem_of_nil in H.
    + apply matches_Cls_inv in Hw1. destruct Hw1 as (x & -> & Hx).
      intros Hin. apply elem_of_cons in Hin. destruct Hin as [<- | Hin]; [|by apply IH].
      rewrite N.eqb_refl in Hx. discriminate.
  - clear -Hws. induction Hws as [|w1 w2 Hw1 _ IH]; [constructor|].
    apply matches_Cls_inv in Hw1. destruct Hw1 as (x & -> & Hx). by constructor.
  - repeat match goal with
           | |- _ :: _ = _ :: _ => f_equal
           | |- (_, _) = (_, _) => f_equal
           end; simpl length; lia.
Qed.

Lemma author_year_groups (cit : str) (m : match_obj) :
  m ∈ finditer author_year_pattern cit ->
  exists pre c g ws y post,
    cit = pre ++ (c :: g) ++ [ch ","] ++ ws ++ y ++ post /\
    is_upper_AZ c = true /\ (ch "," ∉ g) /\
    Forall (fun x => isspace x = true) ws /\
    is_year_token y = true /\
    group m 1 cit = c :: g /\ group m 2 cit = y.
Proof.
  intros Hm. apply finditer_from_at in Hm. destruct Hm as (pre & b & -> & Hat).
  apply author_year_at in Hat.
  destruct Hat as (c & g & ws & y & post & -> & Hc & Hg & Hws & Hy & Hgr & _).
  exists pre, c, g, ws, y, post. repeat split; try assumption.
  - unfold group. rewrite Hgr. simpl span_of.
    apply slice_at; simpl; lia.
  - unfold group. rewrite Hgr. simpl span_of.
    rewrite (app_assoc pre), (app_assoc (pre ++ c :: g)), (app_assoc _ ws).
    apply slice_at; rewrite ?length_app; simpl; lia.
Qed.

(** ** The dictionary of citation keys *)

Lemma citation_step_key (cit : str) (d : gmap str (gset str)) (m : match_obj) :
  citation_step cit d m
  = match match_key cit m with
    | Some k => add_example k cit d
    | None => d
    end.
Proof.
  unfold citation_step, match_key.
  by destruct (normalize_author (strip (group m 1 cit))).
Qed.

Lemma citation_fold_keys (cit : str) (ms : list match_obj) :
  forall d : gmap str (gset str),
    fold_left (citation_step cit) ms d
    = fold_left (fun d k0 => add_example k0 cit d) (omap (match_key cit) ms) d.
Proof.
  induction ms as [|m ms IH]; intros d; [reflexivity|].
  simpl. rewrite IH, citation_step_key.
  by destruct (match_key cit m).
Qed.

Lemma lookup_add_example (k0 cit k : str) (d : gmap str (gset str)) :
  add_example k0 cit d !! k
  = if decide (k0 = k) then Some (default ∅ (d !! k) ∪ {[cit]}) else d !! k.
Proof.
  unfold add_example. rewrite lookup_insert.
  destruct (decide (k0 = k)) as [-> | _]; reflexivity.
Qed.

Lemma fold_add_example (cit k : str) (ks : list str) :
  forall d : gmap str (gset str),
    fold_left (fun d k0 => add_example k0 cit d) ks d !! k
    = if decide (k ∈ ks) then Some (default ∅ (d !! k) ∪ {[cit]}) else d !! k.
Proof.
  induction ks as [|k0 ks IH]; intros d.
  - cbn [fold_left].
    destruct (decide (k ∈ [])) as [H | _]; [by apply elem_of_nil in H | reflexivity].
  - cbn [fold_left]. rewrite IH, lookup_add_example.
    destruct (decide (k0 = k)) as [E | Hne];
      destruct (decide (k ∈ ks)) as [Hin | Hnin];
      destruct (decide (k ∈ k0 :: ks)) as [Hin' | Hnin'];
      try reflexivity.
    + simpl. f_equal. apply set_eq. intros x. rewrite !elem_of_union. tauto.
    + exfalso. apply Hnin'. by right.
    + exfalso. apply Hnin'. subst k0. left.
    + exfalso. apply Hnin'. by right.
    + exfalso. apply elem_of_cons in Hin'. destruct Hin' as [E | Hin']; [by subst | done].
Qed.

Lemma citation_round (cit k : str) (d : gmap str (gset str)) :
  fold_left (citation_step cit) (finditer author_year_pattern cit) d !! k
  = if decide (k ∈ keys_in cit) then Some (default ∅ (d !! k) ∪ {[cit]}) else d !! k.
Proof. rewrite citation_fold_keys. apply fold_add_example. Qed.

Lemma build_from_spec (cits : list str) :
  forall (d : gmap str (gset str)) (cs : list str),
    (forall k cit, cit ∈ default ∅ (d !! k) <-> cit ∈ cs /\ k ∈ keys_in cit) ->
    (forall k, is_Some (d !! k) <-> exists cit, cit ∈ cs /\ k ∈ keys_in cit) ->
    (forall k cit,
       cit ∈ default ∅
               (fold_left (fun d cit =>
                             fold_left (citation_step cit)
                               (finditer author_year_pattern cit) d) cits d !! k)
       <-> cit ∈ cs ++ cits /\ k ∈ keys_in cit)
    /\ (forall k,
          is_Some (fold_left (fun d cit =>
                                fold_left (citation_step cit)
                                  (finditer author_year_pattern cit) d) cits d !! k)
          <-> exists cit, cit ∈ cs ++ cits /\ k ∈ keys_in cit).
Proof.
  induction cits as [|c cits IH]; intros d cs HA HB.
  - simpl. rewrite app_nil_r. by split.
  - simpl. replace (cs ++ c :: cits) with ((cs ++ [c]) ++ cits)
      by (by rewrite <- app_assoc).
    apply IH.
    + intros k cit. rewrite citation_round.
      destruct (decide (k ∈ keys_in c)) as [Hk | Hk]; simpl.
      * rewrite elem_of_union, elem_of_singleton, HA, elem_of_app,
          list_elem_of_singleton.
        split; [intros [[? ?] | ->]; auto | intros [[? | ->] ?]; auto].
      * rewrite HA, elem_of_app, list_elem_of_singleton.
        split; [intros [? ?]; auto | intros [[? | ->] ?]; [auto | done]].
    + intros k. rewrite citation_round.
      destruct (decide (k ∈ keys_in c)) as [Hk | Hk].
      * split; [|by eexists]. intros _. exists c. split; [|exact Hk].
        apply elem_of_app. right. left.
      * rewrite HB. split.
        -- intros (cit & Hc & Hkc). exists cit. split; [|exact Hkc].
           apply elem_of_app. by left.
        -- intros (cit & Hc & Hkc). exists cit. split; [|exact Hkc].
           apply elem_of_app in Hc. destruct Hc as [Hc | Hc]; [exact Hc|].
           apply list_elem_of_singleton in Hc. by subst cit.
Qed.

Lemma build_citation_keys_lookup (citation_strings : list str) (k : str) :
  (is_Some (build_citation_keys citation_strings !! k)
   <-> exists cit, cit ∈ citation_strings /\ k ∈ keys_in cit)
  /\ (forall cit,
        cit ∈ default ∅ (build_citation_keys citation_strings !! k)
        <-> cit ∈ citation_strings /\ k ∈ keys_in cit).
Proof.
  unfold build_citation_keys.
  destruct (build_from_spec citation_strings ∅ []) as [HA HB].
  - intros k' cit. rewrite lookup_empty. simpl. split.
    + intros H. by apply not_elem_of_empty in H.
    + intros [H _]. by apply elem_of_nil in H.
  - intros k'. rewrite lookup_empty. split.
    + intros [x Hx]. discriminate.
    + intros (cit & H & _). by apply elem_of_nil in H.
  - split; [apply HB | intros cit; apply HA].
Qed.

(** X7. The dictionary holds exactly the keys that appear in some citation
    string, and maps a key to exactly the citation strings in which it
    appears: a set that is never empty. *)
Theorem build_citation_keys_spec (citation_strings : list str) (k : str) :
  (k ∈ dom (build_citation_keys citation_strings)
   <-> exists cit, cit ∈ citation_strings /\ k ∈ keys_in cit)
  /\ (forall examples : gset str,
        build_citation_keys citation_strings !! k = Some examples ->
        examples <> ∅
        /\ forall cit, cit ∈ examples <-> cit ∈ citation_strings /\ k ∈ keys_in cit).
Proof.
  destruct (build_citation_keys_lookup citation_strings k) as [HB HA].
  split; [by rewrite elem_of_dom|].
  intros examples He. rewrite He in HA, HB. simpl in HA.
  split; [|exact HA].
  destruct (proj1 HB) as (cit & Hc & Hk); [by eexists|].
  intros ->. apply (not_elem_of_empty (C := gset str) cit). by apply HA.
Qed.

(** X8. The dictionary does not depend on the order of the citation strings
    nor on how often each occurs. *)
Theorem build_citation_keys_set (l1 l2 : list str) :
  (forall cit, cit ∈ l1 <-> cit ∈ l2) ->
  build_citation_keys l1 = build_citation_keys l2.
Proof.
  intros Hl. apply map_eq. intros k.
  destruct (build_citation_keys_lookup l1 k) as [HB1 HA1].
  destruct (build_citation_keys_lookup l2 k) as [HB2 HA2].
  assert (HB : is_Some (build_citation_keys l1 !! k)
               <-> is_Some (build_citation_keys l2 !! k)).
  { rewrite HB1, HB2. split; intros (cit & Hc & Hk); exists cit;
      (split; [by apply Hl | exact Hk]). }
  destruct (build_citation_keys l1 !! k) as [S1|] eqn:E1;
    destruct (build_citation_keys l2 !! k) as [S2|] eqn:E2.
  - f_equal. apply set_eq. intros cit. simpl in HA1, HA2.
    rewrite HA1, HA2, Hl. reflexivity.
  - destruct (proj1 HB) as [x Hx]; [by eexists | discriminate].
  - destruct (proj2 HB) as [x Hx]; [by eexists | discriminate].
  - reflexivity.
Qed.

Lemma normalize_author_strip (s : str) :
  normalize_author (strip s) = normalize_author s.
Proof. unfold normalize_author. by rewrite strip_idem. Qed.

(** X9. Every key of the dictionary comes from a segment "Author, year" of
    a citation string: a stretch that starts with a capital letter and
    holds no comma, then a comma, white space and a year token. The key
    is the normalized stretch, which is not empty, a bar, and the year
    token. *)
Theorem build_citation_keys_keys (citation_strings : list str) (k : str) :
  k ∈ dom (build_citation_keys citation_strings) ->
  exists cit pre c g ws y post,
    cit ∈ citation_strings /\
    cit = pre ++ (c :: g) ++ [ch ","] ++ ws ++ y ++ post /\
    is_upper_AZ c = true /\ (ch "," ∉ g) /\
    Forall (fun x => isspace x = true) ws /\
    is_year_token y = true /\
    normalize_author (c :: g) <> [] /\
    k = make_key (normalize_author (c :: g)) y.
Proof.
  intros Hk. apply elem_of_dom in Hk.
  apply (proj1 (build_citation_keys_lookup citation_strings k)) in Hk.
  destruct Hk as (cit & Hcit & Hk).
  unfold keys_in in Hk. apply list_elem_of_omap in Hk.
  destruct Hk as (m & Hm & Hkey).
  apply author_year_groups in Hm.
  destruct Hm as (pre & c & g & ws & y & post & Hc & Hup & Hg & Hws & Hy & H1 & H2).
  unfold match_key in Hkey. rewrite H1, H2, normalize_author_strip in Hkey.
  exists cit, pre, c, g, ws, y, post. repeat split; try assumption.
  - intros E. by rewrite E in Hkey.
  - destruct (normalize_author (c :: g)); [discriminate | by injection Hkey].
Qed.

(** ** More on the reference list *)

(** X11. The reference lines are trimmed paragraphs that are not empty, in
    the order of the document, and the heading is not one of them: there
    are fewer lines than paragraphs. *)
Theorem extract_reference_paragraphs_lines (texts : list str) :
  extract_reference_paragraphs texts `sublist_of` map strip texts
  /\ Forall (fun r => r <> [] /\ strip r = r) (extract_reference_paragraphs texts)
  /\ (texts <> [] ->
      length (extract_reference_paragraphs texts) < length texts).
Proof.
  unfold extract_reference_paragraphs.
  destruct (first_heading texts) as [Hno | (before & h & after & -> & Hb & Hh)].
  - rewrite (reference_loop_no_heading texts [] Hno).
    split; [apply sublist_nil_l|]. split; [constructor|].
    intros Hne. destruct texts; [done | simpl; lia].
  - rewrite (reference_loop_heading before after [] h Hb Hh), reference_loop_started.
    simpl. split; [|split].
    + rewrite map_app. apply sublist_inserts_l. simpl. apply sublist_cons.
      apply sublist_filter.
    + apply Forall_forall. intros r Hr. apply list_elem_of_filter in Hr.
      destruct Hr as [Hn Hr]. apply list_elem_of_fmap in Hr.
      destruct Hr as (p & -> & _). split; [by destruct (strip p) | apply strip_idem].
    + intros _. rewrite length_app. simpl.
      pose proof (length_filter (fun t => nonempty t = true) (map strip after)) as Hl.
      rewrite length_map in Hl. lia.
Qed.

(** ** More on reference entries *)

Lemma year_pattern_exact (pos : nat) (b : str) (m : match_obj) :
  match_at year_pattern pos b = Some m ->
  exists y post,
    b = y ++ post /\ is_year_token y = true /\
    m_groups m = [(1, (pos, pos + length y))] /\
    (forall c, head post = Some c -> is_lower_az c = true -> length y = 5).
Proof.
  unfold match_at, year_pattern, year_token.
  destruct b as [|d1 [|d2 [|d3 [|d4 rest]]]]; simpl;
    repeat match goal with
    | |- context [if isdecimal ?d then _ else _] => destruct (isdecimal d) eqn:?
    end; try discriminate.
  destruct rest as [|c rest]; simpl.
  - intros [= <-]. exists [d1; d2; d3; d4], []. simpl.
    repeat split; try discriminate.
    + rewrite !andb_true_iff; repeat split; assumption.
    + repeat f_equal; lia.
  - destruct (is_lower_az c) eqn:Hc; simpl; intros [= <-].
    + exists [d1; d2; d3; d4; c], rest. simpl. repeat split.
      * rewrite !andb_true_iff; repeat split; assumption.
      * repeat f_equal; lia.
    + exists [d1; d2; d3; d4], (c :: rest). simpl. repeat split.
      * rewrite !andb_true_iff; repeat split; assumption.
      * repeat f_equal; lia.
      * intros c' [= <-] Hc'. congruence.
Qed.

Lemma parse_from_fields (ls : list str) :
  forall i e,
    e ∈ parse_from i ls ->
    exists m,
      re_search year_pattern (raw e) = Some m /\
      year e = group m 1 (raw e) /\
      author_norm e = normalize_author (strip (before_first (ch ",") (raw e))) /\
      author_norm e <> [] /\
      key e = make_key (author_norm e) (year e).
Proof.
  induction ls as [|text rest IH]; intros i e He; [by apply elem_of_nil in He|].
  cbn [parse_from] in He.
  destruct (re_search year_pattern text) as [m|] eqn:Hm; [|by apply (IH (S i))].
  destruct (normalize_author (strip (before_first (ch ",") text))) as [|c a] eqn:Ha;
    [by apply (IH (S i))|].
  apply elem_of_cons in He. destruct He as [-> | He]; [|by apply (IH (S i))].
  exists m. cbn [raw year author_norm key]. rewrite Ha.
  repeat split; [exact Hm | discriminate].
Qed.

(** X12. Every entry has the key [author_norm|year]: the author is the
    normalized text before the first comma of the line and is not empty;
    the year is the leftmost year token of the line, taken with its
    letter when a lowercase letter follows the four digits. *)
Theorem parse_reference_entries_fields (ref_lines : list str) (e : ref_entry) :
  e ∈ parse_reference_entries ref_lines ->
  key e = make_key (author_norm e) (year e)
  /\ author_norm e = normalize_author (before_first (ch ",") (raw e))
  /\ author_norm e <> []
  /\ is_year_token (year e) = true
  /\ exists pre post,
       raw e = pre ++ year e ++ post
       /\ (forall pre1 y1 post1,
             raw e = pre1 ++ y1 ++ post1 -> is_year_token y1 = true ->
             length pre <= length pre1)
       /\ (forall c, head post = Some c -> is_lower_az c = true ->
                     length (year e) = 5).
Proof.
  intros He. apply parse_from_fields in He.
  destruct He as (m & Hm & Hyear & Hauthor & Hne & Hkey).
  rewrite normalize_author_strip in Hauthor.
  apply search_from_leftmost in Hm.
  destruct Hm as (pre & b & Hraw & Hat & Hleft). simpl in Hat.
  apply year_pattern_exact in Hat.
  destruct Hat as (y & post & -> & Hy & Hg & Hletter).
  assert (Hyy : year e = y).
  { rewrite Hyear. unfold group. rewrite Hg. simpl span_of.
    rewrite Hraw. apply slice_at; lia. }
  rewrite Hyy. repeat split; try assumption; try congruence.
  exists pre, post. split; [exact Hraw|]. split; [|exact Hletter].
  intros pre1 y1 post1 Hraw1 Hy1.
  destruct (Nat.le_gt_cases (length pre) (length pre1)) as [Hle | Hgt]; [exact Hle|].
  exfalso.
  assert (Hsplit : exists a2, pre = pre1 ++ a2 /\ a2 <> []
                              /\ a2 ++ y ++ post = y1 ++ post1).
  { rewrite Hraw in Hraw1. apply app_eq_inv in Hraw1.
    destruct Hraw1 as [(k & Hk & Hk2) | (k & Hk & Hk2)].
    - exists k. split; [exact Hk|]. split; [|by rewrite Hk2].
      intros ->. rewrite app_nil_r in Hk. subst pre. lia.
    - rewrite Hk, length_app in Hgt. lia. }
  destruct Hsplit as (a2 & Hpre & Hne2 & Heq).
  specialize (Hleft pre1 a2 Hpre Hne2). simpl in Hleft. rewrite Heq in Hleft.
  destruct (match_at_complete year_pattern (length pre1) y1 post1 eq_refl) as [m' Hm'].
  - constructor. by apply year_token_of.
  - congruence.
Qed.

Lemma parse_from_shift (ls : list str) :
  forall n i, parse_from (n + i) ls = map (shift_index n) (parse_from i ls).
Proof.
  induction ls as [|text rest IH]; intros n i; [reflexivity|].
  cbn [parse_from].
  replace (S (n + i)) with (n + S i) by lia. rewrite IH.
  destruct (re_search year_pattern text); [|reflexivity].
  by destruct (normalize_author (strip (before_first (ch ",") text))).
Qed.

Lemma parse_from_app (l1 l2 : list str) :
  forall i, parse_from i (l1 ++ l2) = parse_from i l1 ++ parse_from (length l1 + i) l2.
Proof.
  induction l1 as [|text rest IH]; intros i; [reflexivity|].
  cbn [parse_from app length].
  replace (S (length rest) + i) with (length rest + S i) by lia.
  rewrite IH.
  destruct (re_search year_pattern text); [|reflexivity].
  by destruct (normalize_author (strip (before_first (ch ",") text))).
Qed.

(** X13. A line is parsed on its own: the entries of two lists put together
    are the entries of the first, then those of the second with their
    indices moved by the length of the first. *)
Theorem parse_reference_entries_app (l1 l2 : list str) :
  parse_reference_entries (l1 ++ l2)
  = parse_reference_entries l1
    ++ map (shift_index (length l1)) (parse_reference_entries l2).
Proof.
  unfold parse_reference_entries.
  rewrite parse_from_app, parse_from_shift. reflexivity.
Qed.

(** X14. A line without a digit gives no entry, and neither does a line that
    starts with a comma. *)
Theorem parse_reference_entries_dropped (text : str) :
  existsb isdecimal text = false \/ head text = Some (ch ",") ->
  keyable text = false /\ parse_reference_entries [text] = [].
Proof.
  intros H.
  assert (Hk : keyable text = false).
  { unfold keyable. destruct H as [Hd | Hc].
    - destruct (re_search year_pattern text) as [m|] eqn:Hm; [|reflexivity].
      exfalso. apply search_from_leftmost in Hm.
      destruct Hm as (pre & b & -> & Hat & _).
      apply year_pattern_exact in Hat. destruct Hat as (y & post & -> & Hy & _).
      assert (Ht : has_year_token (pre ++ y ++ post)) by (by exists pre, y, post).
      apply has_year_token_digit in Ht. congruence.
    - destruct text as [|c text]; [discriminate|]. injection Hc as ->.
      replace (before_first (ch ",") (ch "," :: text)) with (@nil N)
        by (simpl; rewrite ?N.eqb_refl; reflexivity).
      replace (normalize_author (strip [])) with (@nil N) by (vm_compute; reflexivity).
      apply andb_false_r. }
  split; [exact Hk|].
  unfold parse_reference_entries.
  destruct (parse_from_step 0 text []) as [(Hk' & _) | (_ & Hp)]; [congruence | exact Hp].
Qed.

(** ** More on [main] *)

Lemma could_not_assess_not_good : could_not_assess_line <> good_line.
Proof.
  intros H. apply (f_equal (fun l : str => l !! 11)) in H.
  vm_compute in H. discriminate.
Qed.

Lemma could_not_assess_not_errors : could_not_assess_line <> errors_line.
Proof.
  intros H. apply (f_equal (fun l : str => l !! 11)) in H.
  vm_compute in H. discriminate.
Qed.

Lemma main_found (doc : document) :
  ref_lines (main doc) <> [] ->
  citations (main doc) = extract_citations (extract_text_from_docx doc)
  /\ cit_key_examples (main doc) = build_citation_keys (citations (main doc))
  /\ ref_entries (main doc) = parse_reference_entries (ref_lines (main doc))
  /\ ref_keys (main doc) = list_to_set (map key (ref_entries (main doc)))
  /\ missing_keys (main doc) = dom (cit_key_examples (main doc)) ∖ ref_keys (main doc)
  /\ unused_keys (main doc) = ref_keys (main doc) ∖ dom (cit_key_examples (main doc)).
Proof.
  unfold main.
  destruct (extract_reference_paragraphs (paragraphs doc)) as [|l ls] eqn:E; [done|].
  intros _. unfold reconcile. cbn. repeat split.
Qed.

Lemma main_not_found (doc : document) :
  ref_lines (main doc) = [] ->
  ref_entries (main doc) = [] /\ ref_keys (main doc) = ∅
  /\ missing_keys (main doc) = ∅ /\ unused_keys (main doc) = ∅.
Proof.
  unfold main.
  destruct (extract_reference_paragraphs (paragraphs doc)) as [|l ls] eqn:E.
  - intros _. cbn. repeat split.
  - unfold reconcile. cbn. discriminate.
Qed.

Lemma main_citations (doc : document) :
  citations (main doc) = extract_citations (extract_text_from_docx doc).
Proof.
  unfold main.
  destruct (extract_reference_paragraphs (paragraphs doc)); [reflexivity|].
  unfold reconcile. reflexivity.
Qed.

(** X16. The report ends with "could not assess" exactly when no reference
    line was found, which is the case when no paragraph holds a heading
    keyword; nothing is then reported missing or unused, whatever the
    citations. *)
Theorem main_no_reference_list (doc : document) :
  (overall_line (main doc) = could_not_assess_line
   <-> extract_reference_paragraphs (paragraphs doc) = [])
  /\ (extract_reference_paragraphs (paragraphs doc) = [] ->
      missing_keys (main doc) = ∅ /\ unused_keys (main doc) = ∅
      /\ ref_entries (main doc) = [])
  /\ (Forall (fun p => is_heading (strip p) = false) (paragraphs doc) ->
      overall_line (main doc) = could_not_assess_line).
Proof.
  assert (H1 : overall_line (main doc) = could_not_assess_line
               <-> extract_reference_paragraphs (paragraphs doc) = []).
  { rewrite <- main_ref_lines. unfold overall_line.
    pose proof could_not_assess_not_good as Hg.
    pose proof could_not_assess_not_errors as He.
    set (good := good_line) in *. set (errors := errors_line) in *.
    set (cna := could_not_assess_line) in *. clearbody good errors cna.
    destruct (ref_lines (main doc)) as [|l ls]; [done|].
    destruct (bool_decide _); split; intros H; try discriminate;
      symmetry in H; contradiction. }
  split; [exact H1|]. split.
  - intros H. rewrite <- main_ref_lines in H.
    destruct (main_not_found doc H) as (? & ? & ? & ?). auto.
  - intros H. apply H1. unfold extract_reference_paragraphs.
    by apply reference_loop_no_heading.
Qed.

(** X17. When a reference list was found: a key is missing when it is cited
    and no entry has it, unused when an entry has it and it is not cited;
    no key is both; and both sets are empty exactly when the citation
    keys and the keys of the entries are the same set. *)
Theorem main_reconciles (doc : document) :
  ref_lines (main doc) <> [] ->
  (forall k : str,
     k ∈ missing_keys (main doc)
     <-> is_Some (cit_key_examples (main doc) !! k)
         /\ forall e, e ∈ ref_entries (main doc) -> key e <> k)
  /\ (forall k : str,
        k ∈ unused_keys (main doc)
        <-> (exists e, e ∈ ref_entries (main doc) /\ key e = k)
            /\ cit_key_examples (main doc) !! k = None)
  /\ missing_keys (main doc) ## unused_keys (main doc)
  /\ (missing_keys (main doc) = ∅ /\ unused_keys (main doc) = ∅
      <-> dom (cit_key_examples (main doc)) = ref_keys (main doc)).
Proof.
  intros Hrefs.
  destruct (main_found doc Hrefs) as (_ & _ & _ & Hkeys & Hmiss & Hun).
  assert (Hin : forall k, k ∈ ref_keys (main doc)
                          <-> exists e, e ∈ ref_entries (main doc) /\ key e = k).
  { intros k. rewrite Hkeys, elem_of_list_to_set, list_elem_of_fmap.
    split; intros (e & H1 & H2); exists e; auto. }
  split; [|split; [|split]].
  - intros k. rewrite Hmiss, elem_of_difference, elem_of_dom, Hin.
    split; intros [H1 H2]; (split; [exact H1|]).
    + intros e He Hk. apply H2. by exists e.
    + intros (e & He & Hk). by apply (H2 e He).
  - intros k. rewrite Hun, elem_of_difference, not_elem_of_dom, Hin. reflexivity.
  - rewrite Hmiss, Hun. apply elem_of_disjoint. intros k H1 H2.
    apply elem_of_difference in H1, H2. tauto.
  - rewrite Hmiss, Hun. split.
    + intros [H1 H2]. apply set_eq. intros k. split; intros Hk.
      * destruct (decide (k ∈ ref_keys (main doc))) as [|Hn]; [done|].
        exfalso. apply (not_elem_of_empty (C := gset str) k).
        rewrite <- H1. by apply elem_of_difference.
      * destruct (decide (k ∈ dom (cit_key_examples (main doc)))) as [|Hn]; [done|].
        exfalso. apply (not_elem_of_empty (C := gset str) k).
        rewrite <- H2. by apply elem_of_difference.
    + intros ->. split; apply set_eq; intros k;
        rewrite elem_of_difference; split; try tauto;
        intros H; by apply not_elem_of_empty in H.
Qed.

(** X18. Every parenthesised stretch without inner parentheses that holds a
    year token, in any paragraph or table cell of the document, is among
    the citations of [main]. *)
Theorem main_finds_citation (doc : document) (p pre mid post : str) :
  (p ∈ paragraphs doc
   \/ exists table row, table ∈ tables doc /\ row ∈ table /\ p ∈ row) ->
  p = pre ++ [ch "("] ++ mid ++ [ch ")"] ++ post ->
  Forall (fun c => c <> ch "(" /\ c <> ch ")") mid ->
  has_year_token mid ->
  strip mid ∈ citations (main doc).
Proof.
  intros Hp Heq Hmid Hy. rewrite main_citations.
  destruct (extract_text_block doc p) as (A & B & ->).
  - rewrite Heq. by destruct pre.
  - exact Hp.
  - rewrite Heq, <- !app_assoc, (app_assoc A pre).
    apply citation_group_found; [by apply flat_not_paren | exact Hy].
Qed.

(** ** A citation and the reference entry it cites *)

Lemma spaces_then_same (ws ws' r r' : str) (c c' : N) :
  Forall (fun x => isspace x = true) ws ->
  Forall (fun x => isspace x = true) ws' ->
  head r = Some c -> isspace c = false ->
  head r' = Some c' -> isspace c' = false ->
  ws ++ r = ws' ++ r' -> ws = ws' /\ r = r'.
Proof.
  intros Hws. revert ws'.
  induction Hws as [|x ws Hx _ IH]; intros ws' Hws' Hr Hc Hr' Hc' H.
  - destruct Hws' as [|x' ws' Hx' _]; [by split|]. simpl in H.
    rewrite H in Hr. simpl in Hr. injection Hr as <-. congruence.
  - destruct Hws' as [|x' ws' Hx' Hws']; simpl in H.
    + rewrite <- H in Hr'. simpl in Hr'. injection Hr' as <-. congruence.
    + injection H as <- H.
      destruct (IH ws' Hws' Hr Hc Hr' Hc' H) as [-> ->]. by split.
Qed.

Lemma year_token_head (y : str) :
  is_year_token y = true -> exists d, head y = Some d /\ isdecimal d = true.
Proof.
  destruct y as [|d1 [|d2 [|d3 [|d4 [|l [|x y]]]]]]; simpl; try discriminate;
    rewrite !andb_true_iff; intros H; exists d1; tauto.
Qed.

Lemma year_token_same (y y' post post' : str) :
  is_year_token y = true -> is_year_token y' = true ->
  (forall c, head post = Some c -> is_lower_az c = true -> length y = 5) ->
  (forall c, head post' = Some c -> is_lower_az c = true -> length y' = 5) ->
  y ++ post = y' ++ post' -> y = y' /\ post = post'.
Proof.
  intros Hy Hy' Hg Hg' H.
  destruct y as [|d1 [|d2 [|d3 [|d4 [|l [|x y]]]]]]; try discriminate Hy;
    destruct y' as [|e1 [|e2 [|e3 [|e4 [|l' [|x' y']]]]]]; try discriminate Hy';
    simpl in H.
  - injection H as -> -> -> -> ->. by split.
  - injection H as -> -> -> -> ->. simpl in Hy'. rewrite !andb_true_iff in Hy'.
    specialize (Hg l' eq_refl (proj2 Hy')). discriminate.
  - injection H as -> -> -> -> <-. simpl in Hy. rewrite !andb_true_iff in Hy.
    specialize (Hg' l eq_refl (proj2 Hy)). discriminate.
  - injection H as -> -> -> -> -> ->. by split.
Qed.

Lemma author_year_matches (c0 : N) (g ws y : str) :
  is_upper_AZ c0 = true -> ch "," ∉ g ->
  Forall (fun x => isspace x = true) ws ->
  is_year_token y = true ->
  matches author_year_pattern ((c0 :: g) ++ [ch ","] ++ ws ++ y).
Proof.
  intros Hc Hg Hws Hy. unfold author_year_pattern.
  constructor.
  - constructor. change (c0 :: g) with ([c0] ++ g).
    constructor; [by constructor|].
    apply iter_lazy, iter_cls. apply Forall_forall. intros x Hx.
    apply negb_true_iff, N.eqb_neq. intros ->. by apply Hg.
  - constructor; [constructor; apply N.eqb_refl|].
    constructor; [by apply iter_star, iter_cls|].
    constructor. by apply year_token_of.
Qed.

(** The segment "Author, year" a citation string starts with, after a
    stretch without capital letter, is found by the pattern, with the
    author stretch and the year token as its groups. *)
Lemma author_year_found (pre : str) (c0 : N) (g ws y post : str) :
  Forall (fun c => is_upper_AZ c = false) pre ->
  is_upper_AZ c0 = true -> ch "," ∉ g ->
  Forall (fun x => isspace x = true) ws ->
  is_year_token y = true ->
  (forall c, head post = Some c -> is_lower_az c = true -> length y = 5) ->
  let cit := pre ++ (c0 :: g) ++ [ch ","] ++ ws ++ y ++ post in
  exists m, m ∈ finditer author_year_pattern cit
            /\ group m 1 cit = c0 :: g /\ group m 2 cit = y.
Proof.
  intros Hpre Hc Hg Hws Hy Hgreedy cit.
  destruct (match_at_complete author_year_pattern (length pre)
              ((c0 :: g) ++ [ch ","] ++ ws ++ y) post eq_refl
              (author_year_matches c0 g ws y Hc Hg Hws Hy)) as [m Hm].
  replace (((c0 :: g) ++ [ch ","] ++ ws ++ y) ++ post)
    with ((c0 :: g) ++ [ch ","] ++ ws ++ y ++ post) in Hm
    by (by rewrite <- !app_assoc).
  exists m. split.
  - unfold finditer, cit. apply finditer_from_reach; [lia | | exact Hm].
    intros a1 a2 m' -> Hne Hat. exfalso.
    apply author_year_at in Hat.
    destruct Hat as (c & g' & ws' & y' & post' & Heq & Hup & _).
    destruct a2 as [|x a2]; [by destruct Hne|].
    simpl in Heq. injection Heq as -> _.
    apply Forall_app in Hpre. destruct Hpre as [_ Hpre].
    apply Forall_cons in Hpre. destruct Hpre as [Hx _]. congruence.
  - pose proof Hm as Hat. apply author_year_at in Hat.
    destruct Hat as (c & g' & ws' & y' & post' & Heq & _ & Hg' & Hws' & Hy' & Hgr & Hgreedy').
    assert (E1 : c0 :: g = c :: g' /\ ws ++ y ++ post = ws' ++ y' ++ post').
    { simpl in Heq. injection Heq as <- Heq.
      pose proof (first_stop (ch ",") g g' _ _ Hg Hg' Heq) as <-.
      apply app_inv_head in Heq. injection Heq as Heq. by split. }
    destruct E1 as [E1 E2]. rewrite <- E1 in Hgr.
    destruct (year_token_head y Hy) as (d & Hd & Hdd).
    destruct (year_token_head y' Hy') as (d' & Hd' & Hdd').
    assert (E3 : ws = ws' /\ y ++ post = y' ++ post').
    { apply (spaces_then_same ws ws' (y ++ post) (y' ++ post') d d');
        try assumption; try (by apply isdecimal_not_space).
      - destruct y; [discriminate|]. exact Hd.
      - destruct y'; [discriminate|]. exact Hd'. }
    destruct E3 as [<- E3].
    destruct (year_token_same y y' post post' Hy Hy' Hgreedy Hgreedy' E3) as [<- <-].
    split.
    + unfold group. rewrite Hgr. cbn [span_of Nat.eqb]. unfold cit.
      apply slice_at; simpl; lia.
    + unfold group. rewrite Hgr. cbn [span_of Nat.eqb]. unfold cit.
      rewrite (app_assoc pre), (app_assoc (pre ++ c0 :: g)), (app_assoc _ ws).
      apply slice_at; rewrite ?length_app; simpl; lia.
Qed.

Lemma segment_key (pre : str) (c0 : N) (g ws y post : str) :
  Forall (fun c => is_upper_AZ c = false) pre ->
  is_upper_AZ c0 = true -> ch "," ∉ g ->
  Forall (fun x => isspace x = true) ws ->
  is_year_token y = true ->
  (forall c, head post = Some c -> is_lower_az c = true -> length y = 5) ->
  normalize_author (c0 :: g) <> [] ->
  make_key (normalize_author (c0 :: g)) y
  ∈ keys_in (pre ++ (c0 :: g) ++ [ch ","] ++ ws ++ y ++ post).
Proof.
  intros Hpre Hc Hg Hws Hy Hgreedy Hn.
  destruct (author_year_found pre c0 g ws y post Hpre Hc Hg Hws Hy Hgreedy)
    as (m & Hm & H1 & H2).
  unfold keys_in. apply list_elem_of_omap. exists m. split; [exact Hm|].
  unfold match_key. rewrite H1, H2, normalize_author_strip.
  by destruct (normalize_author (c0 :: g)).
Qed.

(** X10. The segment "Author, year" a citation string starts with, after a
    stretch without capital letter, gives a key of the dictionary, with
    the citation string among its examples: the key is the normalized
    author stretch, a bar, and the year token with its letter. *)
Theorem build_citation_keys_finds (citation_strings : list str)
    (pre : str) (c0 : N) (g ws y post : str) :
  let cit := pre ++ (c0 :: g) ++ [ch ","] ++ ws ++ y ++ post in
  cit ∈ citation_strings ->
  Forall (fun c => is_upper_AZ c = false) pre ->
  is_upper_AZ c0 = true -> ch "," ∉ g ->
  Forall (fun x => isspace x = true) ws ->
  is_year_token y = true ->
  (forall c, head post = Some c -> is_lower_az c = true -> length y = 5) ->
  normalize_author (c0 :: g) <> [] ->
  exists examples : gset str,
    build_citation_keys citation_strings
      !! make_key (normalize_author (c0 :: g)) y = Some examples
    /\ cit ∈ examples.
Proof.
  intros cit Hin Hpre Hc Hg Hws Hy Hgreedy Hn.
  pose proof (segment_key pre c0 g ws y post Hpre Hc Hg Hws Hy Hgreedy Hn) as Hk.
  fold cit in Hk.
  destruct (build_citation_keys_lookup citation_strings
              (make_key (normalize_author (c0 :: g)) y)) as [HB HA].
  destruct (proj2 HB) as [examples He]; [by exists cit|].
  exists examples. split; [exact He|].
  specialize (HA cit). rewrite He in HA. simpl in HA. by apply HA.
Qed.

(** The year of a line: the leftmost year token. *)
Lemma search_from_skip r (s : str) :
  forall (a : str) pos,
    (forall a1 a2, a = a1 ++ a2 -> a2 <> [] ->
       match_at r (pos + length a1) (a2 ++ s) = None) ->
    search_from r pos (a ++ s) = search_from r (pos + length a) s.
Proof.
  induction a as [|c a IH]; intros pos Hnone.
  - simpl. by rewrite Nat.add_0_r.
  - simpl. pose proof (Hnone [] (c :: a) eq_refl) as H0.
    simpl in H0. rewrite Nat.add_0_r in H0. rewrite H0; [|discriminate].
    rewrite IH; [f_equal; lia|].
    intros a1 a2 -> Hne.
    specialize (Hnone (c :: a1) a2 eq_refl Hne). simpl in Hnone.
    by rewrite Nat.add_succ_r in Hnone.
Qed.

Lemma search_from_here r pos (s : str) (m : match_obj) :
  match_at r pos s = Some m -> search_from r pos s = Some m.
Proof. intros H. destruct s; simpl; by rewrite H. Qed.

Lemma year_search (front y post : str) :
  existsb isdecimal front = false ->
  is_year_token y = true ->
  (forall c, head post = Some c -> is_lower_az c = true -> length y = 5) ->
  exists m, re_search year_pattern (front ++ y ++ post) = Some m
            /\ group m 1 (front ++ y ++ post) = y.
Proof.
  intros Hfront Hy Hgreedy.
  destruct (match_at_complete year_pattern (length front) y post eq_refl)
    as [m Hm]; [constructor; by apply year_token_of|].
  exists m. split.
  - unfold re_search. rewrite search_from_skip.
    + by apply search_from_here.
    + intros a1 a2 -> Hne.
      destruct (match_at year_pattern (0 + length a1) (a2 ++ y ++ post))
        as [m'|] eqn:Hat; [|reflexivity]. exfalso.
      apply year_pattern_exact in Hat.
      destruct Hat as (y' & post' & Heq & Hy' & _).
      destruct (year_token_head y' Hy') as (d & Hd & Hdd).
      destruct a2 as [|x a2]; [by destruct Hne|].
      destruct y' as [|x' y']; [discriminate|].
      simpl in Heq, Hd. injection Heq as -> _. injection Hd as ->.
      assert (existsb isdecimal (a1 ++ d :: a2) = true); [|congruence].
      apply existsb_exists. exists d. split; [|exact Hdd].
      apply in_or_app. right. by left.
  - pose proof Hm as Hat. apply year_pattern_exact in Hat.
    destruct Hat as (y' & post' & Heq & Hy' & Hgr & Hgreedy').
    destruct (year_token_same y y' post post' Hy Hy' Hgreedy Hgreedy' Heq) as [<- <-].
    unfold group. rewrite Hgr. cbn [span_of Nat.eqb].
    apply slice_at; lia.
Qed.

Lemma comma_not_decimal : isdecimal (ch ",") = false.
Proof. reflexivity. Qed.

Lemma line_entry (ref_lines : list str) (j : nat) (b rest y post : str) :
  ref_lines !! j = Some (b ++ [ch ","] ++ rest ++ y ++ post) ->
  ch "," ∉ b ->
  existsb isdecimal (b ++ rest) = false ->
  is_year_token y = true ->
  (forall c, head post = Some c -> is_lower_az c = true -> length y = 5) ->
  normalize_author b <> [] ->
  exists e, e ∈ parse_reference_entries ref_lines
            /\ index e = j
            /\ raw e = b ++ [ch ","] ++ rest ++ y ++ post
            /\ author_norm e = normalize_author b
            /\ year e = y
            /\ key e = make_key (normalize_author b) y.
Proof.
  intros Hj Hb Hd Hy Hgreedy Hn.
  set (line := b ++ [ch ","] ++ rest ++ y ++ post) in *.
  assert (Hfront : existsb isdecimal (b ++ [ch ","] ++ rest) = false).
  { rewrite existsb_app in Hd. apply orb_false_iff in Hd. destruct Hd as [H1 H2].
    rewrite !existsb_app. cbn [existsb]. rewrite H1, H2, comma_not_decimal.
    reflexivity. }
  destruct (year_search (b ++ [ch ","] ++ rest) y post Hfront Hy Hgreedy)
    as (m & Hm & Hgrp).
  replace ((b ++ [ch ","] ++ rest) ++ y ++ post) with line in Hm, Hgrp
    by (unfold line; by rewrite <- !app_assoc).
  assert (Hauthor : normalize_author (strip (before_first (ch ",") line))
                    = normalize_author b).
  { unfold line. change ([ch ","] ++ rest ++ y ++ post)
      with (ch "," :: rest ++ y ++ post).
    by rewrite before_first_stop, normalize_author_strip. }
  assert (Hk : keyable line = true).
  { unfold keyable. rewrite Hm, Hauthor.
    rewrite bool_decide_eq_true_2 by (by eexists).
    by destruct (normalize_author b). }
  unfold parse_reference_entries.
  destruct (parse_from_complete ref_lines 0 j line Hj Hk) as (e & He & Hi & Hr).
  exists e. split; [exact He|]. split; [exact Hi|]. split; [exact Hr|].
  destruct (parse_from_fields ref_lines 0 e He) as (m' & Hm' & Hyear & Ha & _ & Hkey).
  rewrite Hr in Hm', Hyear, Ha. rewrite Hm in Hm'. injection Hm' as <-.
  rewrite Hgrp in Hyear. rewrite Hauthor in Ha.
  rewrite Hkey, Ha, Hyear. by repeat split.
Qed.

(** X15. A line "Author, ... year ..." of the reference list, without digit
    before the year token, gets an entry: its index is the position of
    the line, its author the normalized text before the first comma, its
    year the token with its letter. *)
Theorem parse_reference_entries_line (ref_lines : list str) (j : nat)
    (b rest y post : str) :
  ref_lines !! j = Some (b ++ [ch ","] ++ rest ++ y ++ post) ->
  ch "," ∉ b ->
  existsb isdecimal (b ++ rest) = false ->
  is_year_token y = true ->
  (forall c, head post = Some c -> is_lower_az c = true -> length y = 5) ->
  normalize_author b <> [] ->
  exists e, e ∈ parse_reference_entries ref_lines
            /\ index e = j
            /\ raw e = b ++ [ch ","] ++ rest ++ y ++ post
            /\ author_norm e = normalize_author b
            /\ year e = y
            /\ key e = make_key (normalize_author b) y.
Proof. apply line_entry. Qed.

(** ** [main]: a citation and its entry; what the report lists *)

(** X19. A citation "Author, year" and a reference line "Author, ... year ..."
    whose authors normalize to the same surname, with the same year
    token, meet: the key is a citation key and a reference key, and is
    reported neither missing nor unused. *)
Theorem main_cited_entry (doc : document) (j : nat)
    (pre : str) (c0 : N) (g ws y post b rest post' : str) :
  (pre ++ (c0 :: g) ++ [ch ","] ++ ws ++ y ++ post) ∈ citations (main doc) ->
  ref_lines (main doc) !! j = Some (b ++ [ch ","] ++ rest ++ y ++ post') ->
  Forall (fun c => is_upper_AZ c = false) pre ->
  is_upper_AZ c0 = true -> ch "," ∉ g ->
  Forall (fun x => isspace x = true) ws ->
  is_year_token y = true ->
  (forall c, head post = Some c -> is_lower_az c = true -> length y = 5) ->
  ch "," ∉ b ->
  existsb isdecimal (b ++ rest) = false ->
  (forall c, head post' = Some c -> is_lower_az c = true -> length y = 5) ->
  normalize_author (c0 :: g) = normalize_author b ->
  normalize_author b <> [] ->
  let k := make_key (normalize_author b) y in
  k ∈ dom (cit_key_examples (main doc))
  /\ k ∈ ref_keys (main doc)
  /\ (k ∉ missing_keys (main doc))
  /\ (k ∉ unused_keys (main doc)).
Proof.
  intros Hcit Hline Hpre Hc Hg Hws Hy Hgreedy Hb Hd Hgreedy' Hsame Hn k.
  assert (Hrefs : ref_lines (main doc) <> []).
  { intros E. rewrite E in Hline. discriminate. }
  destruct (main_found doc Hrefs) as (_ & Hdict & Hentries & Hkeys & Hmiss & Hun).
  assert (H1 : k ∈ dom (cit_key_examples (main doc))).
  { apply elem_of_dom. rewrite Hdict.
    apply (proj1 (build_citation_keys_lookup _ k)).
    eexists. split; [exact Hcit|]. unfold k. rewrite <- Hsame.
    apply segment_key; try assumption. by rewrite Hsame. }
  assert (H2 : k ∈ ref_keys (main doc)).
  { rewrite Hkeys, Hentries. apply elem_of_list_to_set, list_elem_of_fmap.
    destruct (line_entry _ j b rest y post' Hline Hb Hd Hy Hgreedy' Hn)
      as (e & He & _ & _ & _ & _ & Hk).
    exists e. by split. }
  split; [exact H1|]. split; [exact H2|].
  rewrite Hmiss, Hun, !elem_of_difference. tauto.
Qed.

(** X20. Every key reported missing has its examples: the look-up in the
    dictionary gives a set that is not empty, the citation strings of the
    text in which the key appears. *)
Theorem main_missing_examples (doc : document) (k : str) :
  k ∈ missing_keys (main doc) ->
  exists examples : gset str,
    cit_key_examples (main doc) !! k = Some examples
    /\ examples <> ∅
    /\ forall cit, cit ∈ examples <-> cit ∈ citations (main doc) /\ k ∈ keys_in cit.
Proof.
  intros Hk.
  assert (Hrefs : ref_lines (main doc) <> []).
  { intros E. destruct (main_not_found doc E) as (_ & _ & Hm & _).
    rewrite Hm in Hk. by apply not_elem_of_empty in Hk. }
  destruct (main_found doc Hrefs) as (_ & Hdict & _ & _ & Hmiss & _).
  rewrite Hmiss in Hk. apply elem_of_difference in Hk. destruct Hk as [Hk _].
  apply elem_of_dom in Hk. destruct Hk as [examples He].
  exists examples. split; [exact He|].
  rewrite Hdict in He.
  destruct (build_citation_keys_lookup (citations (main doc)) k) as [HB HA].
  rewrite He in HA, HB. simpl in HA. split; [|exact HA].
  destruct (proj1 HB) as (cit & H1 & H2); [by eexists|].
  intros E. apply (not_elem_of_empty (C := gset str) cit).
  rewrite <- E. by apply HA.
Qed.

Lemma parse_from_raw (ls : list str) :
  forall i, map raw (parse_from i ls) `sublist_of` ls.
Proof.
  induction ls as [|text rest IH]; intros i; [constructor|].
  destruct (parse_from_step i text rest) as [(_ & e & _ & Hr & ->) | (_ & ->)].
  - simpl. rewrite Hr. apply sublist_skip, IH.
  - apply sublist_cons, IH.
Qed.

Lemma entry_key_of_raw (ls : list str) (e e' : ref_entry) :
  e ∈ parse_reference_entries ls -> e' ∈ parse_reference_entries ls ->
  raw e = raw e' -> key e = key e'.
Proof.
  intros He He' Hr.
  destruct (parse_from_fields ls 0 e He) as (m & Hm & Hy & Ha & _ & Hk).
  destruct (parse_from_fields ls 0 e' He') as (m' & Hm' & Hy' & Ha' & _ & Hk').
  rewrite Hr in Hm, Hy, Ha. rewrite Hm in Hm'. injection Hm' as <-.
  by rewrite Hk, Hk', Ha, Ha', Hy, Hy'.
Qed.

(** X21. What the report lists under the [INFO] header: reference lines in the
    order of the document, each with the prefix of the list; the line of
    an entry is listed exactly when no citation gives its key; and the
    list is empty exactly when no key is unused. *)
Theorem main_unused_lines (doc : document) :
  (exists ls, ls `sublist_of` ref_lines (main doc)
              /\ unused_entry_lines (main doc) = map (app (u "  - ")) ls)
  /\ (forall e, e ∈ ref_entries (main doc) ->
        (u "  - " ++ raw e) ∈ unused_entry_lines (main doc)
        <-> cit_key_examples (main doc) !! key e = None)
  /\ (unused_entry_lines (main doc) = [] <-> unused_keys (main doc) = ∅).
Proof.
  unfold unused_entry_lines.
  destruct (decide (ref_lines (main doc) = [])) as [Hnone | Hrefs].
  - destruct (main_not_found doc Hnone) as (-> & _ & _ & ->). simpl.
    split; [exists []; split; [apply sublist_nil_l | reflexivity]|].
    split; [intros e He; by apply elem_of_nil in He | done].
  - destruct (main_found doc Hrefs) as (_ & _ & Hentries & Hkeys & _ & Hun).
    assert (Hin : forall e, e ∈ ref_entries (main doc) ->
              key e ∈ unused_keys (main doc)
              <-> cit_key_examples (main doc) !! key e = None).
    { intros e He. rewrite Hun, elem_of_difference, not_elem_of_dom, Hkeys.
      split; [tauto|]. intros H. split; [|exact H].
      apply elem_of_list_to_set, list_elem_of_fmap. by exists e. }
    split; [|split].
    + exists (map raw (filter (fun e => key e ∈ unused_keys (main doc))
                         (ref_entries (main doc)))).
      split; [|by rewrite map_map].
      transitivity (map raw (ref_entries (main doc))).
      * apply (fmap_sublist raw), sublist_filter.
      * rewrite Hentries. apply parse_from_raw.
    + intros e He. rewrite <- (Hin e He). split.
      * intros H. apply list_elem_of_fmap in H. destruct H as (e' & Heq & He').
        apply list_elem_of_filter in He'. destruct He' as [Hk He'].
        apply app_inv_head in Heq.
        rewrite Hentries in He, He'.
        by rewrite (entry_key_of_raw _ e e' He He' Heq).
      * intros Hk. apply list_elem_of_fmap. exists e. split; [reflexivity|].
        by apply list_elem_of_filter.
    + split.
      * intros Hnil. apply set_eq. intros k. split;
          [|intros H; by apply not_elem_of_empty in H].
        intros Hk. exfalso.
        assert (Hr : k ∈ ref_keys (main doc)).
        { rewrite Hun in Hk. by apply elem_of_difference in Hk as [? _]. }
        rewrite Hkeys in Hr. apply elem_of_list_to_set, list_elem_of_fmap in Hr.
        destruct Hr as (e & -> & He).
        assert (Hf : e ∈ filter (fun e => key e ∈ unused_keys (main doc))
                       (ref_entries (main doc)))
          by (by apply list_elem_of_filter).
        destruct (filter _ _); [by apply elem_of_nil in Hf | discriminate Hnil].
      * intros E. rewrite E.
        replace (filter _ _) with (@nil ref_entry); [reflexivity|].
        symmetry. apply elem_of_nil_inv. intros e He.
        apply list_elem_of_filter in He. destruct He as [Hk _].
        by apply not_elem_of_empty in Hk.
Qed.

End Checker.

(** ** Concrete instances

    The inputs below are ASCII, so the database is never consulted; they
    are run with [ascii_only]. *)

(** C5 at the text of the example. *)
Lemma extract_citations_candidates_witness :
  u "Duer et al., 1992; Luo, 2022"
    ∈ @extract_citations ascii_only
        (u "as shown (Duer et al., 1992; Luo, 2022) and (see discussion)")
  /\ @has_year_token ascii_only (u "Duer et al., 1992; Luo, 2022")
  /\ Forall (fun c => c <> ch "(" /\ c <> ch ")") (u "Duer et al., 1992; Luo, 2022").
Proof.
  assert (H : u "Duer et al., 1992; Luo, 2022"
                ∈ @extract_citations ascii_only
                    (u "as shown (Duer et al., 1992; Luo, 2022) and (see discussion)")).
  { replace (@extract_citations ascii_only
               (u "as shown (Duer et al., 1992; Luo, 2022) and (see discussion)"))
      with [u "Duer et al., 1992; Luo, 2022"] by (vm_compute; reflexivity).
    apply list_elem_of_singleton. reflexivity. }
  split; [exact H|].
  destruct (@extract_citations_candidates ascii_only _ _ H) as (H1 & H2 & _).
  split; assumption.
Defined.

(** C10 at "X. Li": the letter "l" of the result. *)
Lemma normalize_author_chars_witness :
  ch "l" ∈ @normalize_author ascii_only (u "X. Li")
  /\ (is_lower_az (ch "l") = true \/ ch "l" = ch "-" \/ ch "l" = ch "'"
      \/ isspace (ch "l") = true)
  /\ @isdecimal ascii_only (ch "l") = false.
Proof.
  assert (H : ch "l" ∈ @normalize_author ascii_only (u "X. Li")).
  { replace (@normalize_author ascii_only (u "X. Li")) with [ch "l"; ch "i"]
      by (vm_compute; reflexivity).
    left. }
  split; [exact H|].
  destruct (@normalize_author_chars ascii_only (u "X. Li") (ch "l") H)
    as (H1 & H2 & _).
  split; assumption.
Defined.

(** C2, amended, at a document whose reference entry is never cited. *)
Lemma overall_line_good_witness :
  ref_lines (@main ascii_only uncited_reference) <> []
  /\ (overall_line (@main ascii_only uncited_reference) = good_line
      <-> missing_keys (@main ascii_only uncited_reference) = ∅).
Proof.
  assert (H : ref_lines (@main ascii_only uncited_reference) <> []).
  { replace (ref_lines (@main ascii_only uncited_reference))
      with [u "Duer, A. 1992. Title."] by (vm_compute; reflexivity).
    discriminate. }
  split; [exact H|].
  exact (proj1 (@overall_line_good ascii_only uncited_reference H)).
Defined.

(** C2 as stated fails: with one reference entry and no citation the
    reference list is found, nothing is missing, the entry is unused, and
    the last line of the report still says that consistency is good. *)
Lemma good_verdict_with_unused_entry :
  ref_lines (@main ascii_only uncited_reference) <> []
  /\ ~ (overall_line (@main ascii_only uncited_reference) = good_line
        <-> missing_keys (@main ascii_only uncited_reference) = ∅
            /\ unused_keys (@main ascii_only uncited_reference) = ∅).
Proof.
  assert (Hrefs : ref_lines (@main ascii_only uncited_reference)
                  = [u "Duer, A. 1992. Title."]) by (vm_compute; reflexivity).
  assert (Hline : overall_line (@main ascii_only uncited_reference) = good_line)
    by (vm_compute; reflexivity).
  assert (Hunused : unused_keys (@main ascii_only uncited_reference)
                    = {[ u "duer|1992" ]}) by (vm_compute; reflexivity).
  split.
  - rewrite Hrefs. discriminate.
  - intros [Hgood _]. destruct (Hgood Hline) as [_ Hempty].
    rewrite Hunused in Hempty.
    assert (Hin : u "duer|1992" ∈ (∅ : gset str)).
    { rewrite <- Hempty. by apply elem_of_singleton. }
    by apply not_elem_of_empty in Hin.
Qed.

(** C3, amended, at two lines of which the first has no year. *)
Lemma parse_reference_entries_index_witness :
  {| index := 1; raw := u "Duer, A. 1992. Title."; author_norm := u "duer";
     year := u "1992"; key := u "duer|1992" |}
    ∈ @parse_reference_entries ascii_only
        [u "Untitled note"; u "Duer, A. 1992. Title."]
  /\ [u "Untitled note"; u "Duer, A. 1992. Title."] !! 1
     = Some (u "Duer, A. 1992. Title.").
Proof.
  assert (H : {| index := 1; raw := u "Duer, A. 1992. Title."; author_norm := u "duer";
                 year := u "1992"; key := u "duer|1992" |}
                ∈ @parse_reference_entries ascii_only
                    [u "Untitled note"; u "Duer, A. 1992. Title."]).
  { replace (@parse_reference_entries ascii_only
               [u "Untitled note"; u "Duer, A. 1992. Title."])
      with [{| index := 1; raw := u "Duer, A. 1992. Title."; author_norm := u "duer";
               year := u "1992"; key := u "duer|1992" |}]
      by (vm_compute; reflexivity).
    left. }
  split; [exact H|].
  exact (proj1 (proj1 (@parse_reference_entries_index ascii_only
                         [u "Untitled note"; u "Duer, A. 1992. Title."]) _ H)).
Defined.

(** C3 as stated fails: the line without a year is dropped and the entry
    of the next line has index 1, not 0. *)
Lemma dropped_line_keeps_its_index :
  map index (@parse_reference_entries ascii_only
               [u "Untitled note"; u "Duer, A. 1992. Title."])
  <> seq 0 (length (@parse_reference_entries ascii_only
                      [u "Untitled note"; u "Duer, A. 1992. Title."])).
Proof. vm_compute. discriminate. Qed.

(** C4, amended, at a name without "et al.". *)
Lemma et_al_needs_period_witness :
  contains (u "et al.") (u "X. Duer et al") = false
  /\ re_sub_empty et_al_pattern (u "X. Duer et al") = u "X. Duer et al".
Proof.
  assert (H : contains (u "et al.") (u "X. Duer et al") = false)
    by (vm_compute; reflexivity).
  split; [exact H|].
  exact (proj1 (proj2 (@et_al_needs_period ascii_only)) (u "X. Duer et al") H).
Defined.

(** C4 as stated fails: without the period "et al" stays, and its last
    word becomes the surname. *)
Lemma et_al_without_period_kept :
  ~ (@normalize_author ascii_only (u "X. Duer et al")
     = @normalize_author ascii_only (u "X. Duer et al.")
     /\ @normalize_author ascii_only (u "X. Duer et al") = u "duer").
Proof. intros [H _]. vm_compute in H. discriminate. Qed.

(** C9 at a list with a heading, an empty paragraph and one entry. *)
Lemma extract_reference_paragraphs_spec_witness :
  @extract_reference_paragraphs ascii_only
    [u "Introduction"; u "References"; u "  "; u " Duer, A. 1992. Title. "]
  = [u "Duer, A. 1992. Title."].
Proof.
  rewrite (proj1 (@extract_reference_paragraphs_spec ascii_only
                    [u "Introduction"; u "References"; u "  ";
                     u " Duer, A. 1992. Title. "])
             [u "Introduction"] (u "References")
             [u "  "; u " Duer, A. 1992. Title. "]).
  - vm_compute. reflexivity.
  - reflexivity.
  - constructor; [vm_compute; reflexivity | constructor].
  - vm_compute. reflexivity.
Defined.

(** C1 at the two keys of the example. *)
Lemma reconcile_exact_witness :
  u "smith|2020"
    ∈ (reconcile {[ u "smith|2020" := {[ u "Smith, 2020" ]} ]} {[ u "smith|2020a" ]}).1.
Proof.
  apply (proj1 (proj2 (@reconcile_exact ascii_only
                         {[ u "smith|2020" := {[ u "Smith, 2020" ]} ]}
                         {[ u "smith|2020a" ]}))).
  split.
  - rewrite lookup_singleton_eq. by eexists.
  - intros r Hr. apply elem_of_singleton in Hr. subst r.
    intros H. vm_compute in H. discriminate.
Defined.


(** ** Further instances *)

(** X2 at a parenthesised citation between two stretches of text. *)
Lemma extract_citations_finds_witness :
  strip (u " Luo, 2022 ")
    ∈ @extract_citations ascii_only
        (u "see" ++ [ch "("] ++ u " Luo, 2022 " ++ [ch ")"] ++ u " and more").
Proof.
  apply (@extract_citations_finds ascii_only (u "see") (u " Luo, 2022 ") (u " and more")).
  - vm_compute. repeat (constructor; [split; discriminate|]). constructor.
  - exists (u " Luo, "), (u "2022"), (u " "). split; vm_compute; reflexivity.
Defined.

(** X3 at a text with parentheses and no digit. *)
Lemma extract_citations_none_witness :
  @extract_citations ascii_only (u "as said (see discussion) before") = [].
Proof.
  apply (@extract_citations_none ascii_only). left. vm_compute. reflexivity.
Defined.

(** X4 at "X. Li" with white space around it. *)
Lemma normalize_author_trims_witness :
  @normalize_author ascii_only (u "  " ++ u "X. Li" ++ u " ")
  = @normalize_author ascii_only (u "X. Li").
Proof.
  apply (@normalize_author_trims ascii_only (u "  ") (u "X. Li") (u " "));
    vm_compute; repeat constructor.
Defined.

(** X6 at "Duer, A.": the word before the comma. *)
Lemma normalize_author_surname_first_witness :
  @normalize_author ascii_only (u "Duer" ++ ch "," :: u " A.")
  = map ascii_lower (u "Duer").
Proof.
  apply (@normalize_author_surname_first ascii_only (u "Duer") (u " A.")).
  - discriminate.
  - vm_compute. repeat constructor.
Defined.

(** X8 at a citation string given twice, and the order changed. *)
Lemma build_citation_keys_set_witness :
  @build_citation_keys ascii_only
    [u "Luo, 2022"; u "Duer et al., 1992"; u "Luo, 2022"]
  = @build_citation_keys ascii_only [u "Duer et al., 1992"; u "Luo, 2022"].
Proof.
  apply (@build_citation_keys_set ascii_only).
  generalize (u "Luo, 2022") (u "Duer et al., 1992"). intros x y cit.
  rewrite !elem_of_cons, elem_of_nil. tauto.
Defined.

(** X9 at the key of "Luo, 2022", which comes from a segment of that
    string. *)
Lemma build_citation_keys_keys_witness :
  exists cit pre c g ws y post,
    cit ∈ [u "Luo, 2022"] /\
    cit = pre ++ (c :: g) ++ [ch ","] ++ ws ++ y ++ post /\
    is_upper_AZ c = true /\ (ch "," ∉ g) /\
    Forall (fun x => isspace x = true) ws /\
    @is_year_token ascii_only y = true /\
    @normalize_author ascii_only (c :: g) <> [] /\
    u "luo|2022" = make_key (@normalize_author ascii_only (c :: g)) y.
Proof.
  apply (@build_citation_keys_keys ascii_only [u "Luo, 2022"] (u "luo|2022")).
  replace (@build_citation_keys ascii_only [u "Luo, 2022"])
    with ({[ u "luo|2022" := {[ u "Luo, 2022" ]} ]} : gmap str (gset str))
    by (vm_compute; reflexivity).
  rewrite dom_singleton_L. by apply elem_of_singleton.
Defined.

(** X10 at "see Luo, 2022a": the key is "luo|2022a". *)
Lemma build_citation_keys_finds_witness :
  exists examples : gset str,
    @build_citation_keys ascii_only [u "see Luo, 2022a"]
      !! make_key (@normalize_author ascii_only (u "Luo")) (u "2022a") = Some examples
    /\ u "see Luo, 2022a" ∈ examples.
Proof.
  apply (@build_citation_keys_finds ascii_only [u "see Luo, 2022a"]
           (u "see ") (ch "L") (u "uo") (u " ") (u "2022a") []).
  - left.
  - vm_compute. repeat constructor.
  - reflexivity.
  - intros H. vm_compute in H. apply list_elem_of_In in H. simpl in H.
    destruct H as [H | [H | []]]; discriminate.
  - vm_compute. repeat constructor.
  - reflexivity.
  - intros c H. discriminate.
  - vm_compute. discriminate.
Defined.

(** X12 at the entry of "Duer, A. 1992. Title.". *)
Lemma parse_reference_entries_fields_witness :
  u "duer|1992" = make_key (u "duer") (u "1992")
  /\ u "duer" = @normalize_author ascii_only
                  (before_first (ch ",") (u "Duer, A. 1992. Title.")).
Proof.
  assert (H : {| index := 0; raw := u "Duer, A. 1992. Title."; author_norm := u "duer";
                 year := u "1992"; key := u "duer|1992" |}
                ∈ @parse_reference_entries ascii_only [u "Duer, A. 1992. Title."]).
  { replace (@parse_reference_entries ascii_only [u "Duer, A. 1992. Title."])
      with [{| index := 0; raw := u "Duer, A. 1992. Title."; author_norm := u "duer";
               year := u "1992"; key := u "duer|1992" |}]
      by (vm_compute; reflexivity).
    left. }
  destruct (@parse_reference_entries_fields ascii_only _ _ H) as (H1 & H2 & _).
  split; [exact H1 | exact H2].
Defined.

(** X14 at a line without a digit. *)
Lemma parse_reference_entries_dropped_witness :
  @keyable ascii_only (u "Untitled note") = false
  /\ @parse_reference_entries ascii_only [u "Untitled note"] = [].
Proof.
  apply (@parse_reference_entries_dropped ascii_only). left. vm_compute. reflexivity.
Defined.

(** X15 at the second of two lines, "Duer, A. 1992. Title.". *)
Lemma parse_reference_entries_line_witness :
  exists e, e ∈ @parse_reference_entries ascii_only
                  [u "Untitled note"; u "Duer" ++ [ch ","] ++ u " A. " ++ u "1992" ++ u ". Title."]
            /\ index e = 1
            /\ raw e = u "Duer" ++ [ch ","] ++ u " A. " ++ u "1992" ++ u ". Title."
            /\ author_norm e = @normalize_author ascii_only (u "Duer")
            /\ year e = u "1992"
            /\ key e = make_key (@normalize_author ascii_only (u "Duer")) (u "1992").
Proof.
  apply (@parse_reference_entries_line ascii_only).
  - reflexivity.
  - intros H. vm_compute in H. apply list_elem_of_In in H. simpl in H.
    repeat (destruct H as [H | H]; [discriminate|]). destruct H.
  - vm_compute. reflexivity.
  - reflexivity.
  - intros c H Hc. vm_compute in H. injection H as <-. vm_compute in Hc. discriminate.
  - vm_compute. discriminate.
Defined.

(** X17 at the cited document: no key is both missing and unused. *)
Lemma main_reconciles_witness :
  missing_keys (@main ascii_only cited_document)
  ## unused_keys (@main ascii_only cited_document).
Proof.
  assert (H : ref_lines (@main ascii_only cited_document) <> []).
  { replace (ref_lines (@main ascii_only cited_document))
      with [u "Duer, A. 1992. Title."] by (vm_compute; reflexivity).
    discriminate. }
  exact (proj1 (proj2 (proj2 (@main_reconciles ascii_only cited_document H)))).
Defined.

(** X18 at the citation of the first paragraph of the cited document. *)
Lemma main_finds_citation_witness :
  strip (u "Duer et al., 1992; Luo, 2022")
    ∈ citations (@main ascii_only cited_document).
Proof.
  apply (@main_finds_citation ascii_only cited_document
           (u "As shown (Duer et al., 1992; Luo, 2022).")
           (u "As shown ") (u "Duer et al., 1992; Luo, 2022") (u ".")).
  - left. left.
  - vm_compute. reflexivity.
  - vm_compute. repeat (constructor; [split; discriminate|]). constructor.
  - exists (u "Duer et al., "), (u "1992"), (u "; Luo, 2022").
    split; vm_compute; reflexivity.
Defined.

(** X19 at "Duer et al., 1992" and the line "Duer, A. 1992. Title.". *)
Lemma main_cited_entry_witness :
  make_key (@normalize_author ascii_only (u "Duer")) (u "1992")
    ∈ dom (cit_key_examples (@main ascii_only cited_document))
  /\ make_key (@normalize_author ascii_only (u "Duer")) (u "1992")
       ∈ ref_keys (@main ascii_only cited_document)
  /\ (make_key (@normalize_author ascii_only (u "Duer")) (u "1992")
        ∉ missing_keys (@main ascii_only cited_document))
  /\ (make_key (@normalize_author ascii_only (u "Duer")) (u "1992")
        ∉ unused_keys (@main ascii_only cited_document)).
Proof.
  apply (@main_cited_entry ascii_only cited_document 0
           [] (ch "D") (u "uer et al.") (u " ") (u "1992") (u "; Luo, 2022")
           (u "Duer") (u " A. ") (u ". Title.")).
  - replace (citations (@main ascii_only cited_document))
      with [u "Duer et al., 1992; Luo, 2022"] by (vm_compute; reflexivity).
    left.
  - vm_compute. reflexivity.
  - constructor.
  - reflexivity.
  - intros H. vm_compute in H. apply list_elem_of_In in H. simpl in H.
    repeat (destruct H as [H | H]; [discriminate|]). destruct H.
  - vm_compute. repeat constructor.
  - reflexivity.
  - intros c H Hc. vm_compute in H. injection H as <-. vm_compute in Hc. discriminate.
  - intros H. vm_compute in H. apply list_elem_of_In in H. simpl in H.
    repeat (destruct H as [H | H]; [discriminate|]). destruct H.
  - vm_compute. reflexivity.
  - intros c H Hc. vm_compute in H. injection H as <-. vm_compute in Hc. discriminate.
  - vm_compute. reflexivity.
  - vm_compute. discriminate.
Defined.

(** X20 at "luo|2022", missing in the cited document, with its example. *)
Lemma main_missing_examples_witness :
  exists examples : gset str,
    cit_key_examples (@main ascii_only cited_document) !! u "luo|2022" = Some examples
    /\ examples <> ∅
    /\ forall cit, cit ∈ examples
                   <-> cit ∈ citations (@main ascii_only cited_document)
                       /\ u "luo|2022" ∈ @keys_in ascii_only cit.
Proof.
  apply (@main_missing_examples ascii_only cited_document (u "luo|2022")).
  replace (missing_keys (@main ascii_only cited_document))
    with ({[ u "luo|2022" ]} : gset str) by (vm_compute; reflexivity).
  by apply elem_of_singleton.
Defined.
